(** * generator.c: a shallow embedding and its verified properties

    The program reads three [int]s (count, minimum, maximum) from standard
    input, opens [randoms.txt] for writing, seeds the C library's
    pseudo-random generator from the clock and writes [count] numbers
    [min + rand() % (max - min + 1)], one per line.

    [main] is embedded as a function in a small state-and-fault monad over
    an explicit [world] (standard input and output, the file, the clock, the
    generator's hidden state and the trace of library calls).  C [int]s are
    integers of [Z] with two's complement wrap-around written out; the
    remainder by zero is a fault ([Trap]), as the machine raises it.  The
    loop runs on fuel: that enough fuel always exists is proved, not
    assumed.  Of the library calls only [fopen] and [scanf] can fail here,
    as in the program, which tests the first and ignores the second; a
    write always succeeds. *)

From Stdlib Require Import ZArith List String Ascii Bool Lia.
From Stdlib Require Import DecimalString DecimalZ.
Import ListNotations.

Open Scope Z_scope.

(** ** C [int] arithmetic *)

Definition INT_MAX : Z := 2147483647.
Definition INT_MIN : Z := -2147483648.
Definition UINT_MODULUS : Z := 4294967296.

(** The value of an [int] object: the representative of [z] modulo 2^32
    in [INT_MIN .. INT_MAX]. *)
Definition wrap (z : Z) : Z := (z - INT_MIN) mod UINT_MODULUS + INT_MIN.

Definition in_int (z : Z) : Prop := INT_MIN <= z <= INT_MAX.

Definition int_add (a b : Z) : Z := wrap (a + b).
Definition int_sub (a b : Z) : Z := wrap (a - b).

(** [a % b]: the remainder has the sign of the dividend; there is none for
    [b = 0], nor for [INT_MIN % -1] (the quotient overflows). *)
Definition int_rem (a b : Z) : option Z :=
  if (b =? 0) || ((a =? INT_MIN) && (b =? -1)) then None
  else Some (Z.rem a b).

(** Conversion to [unsigned int], as for the argument of [srand]. *)
Definition to_unsigned (z : Z) : Z := z mod UINT_MODULUS.

(** ** The C library's pseudo-random generator

    [rand] is not part of the repository: it is an interface, of which the
    program uses that [rand()] returns an [int] between 0 and [RAND_MAX]. *)

Class Prng : Type := {
  rng : Type;
  srand_state : Z -> rng;
  rand_step : rng -> Z * rng;
  rand_range : forall s, 0 <= fst (rand_step s) <= INT_MAX
}.

(** ** Text *)

Definition newline : string := String (ascii_of_nat 10) EmptyString.

(** The conversion [%d] of [printf]. *)
Definition print_d (v : Z) : string := NilZero.string_of_int (Z.to_int v).

(** Reading a decimal numeral back. *)
Definition parse_d (s : string) : option Z :=
  option_map Z.of_int (NilZero.int_of_string s).

(** The newline-terminated lines of a text; characters after the last
    newline make a last, unterminated, line. *)
Fixpoint lines_from (cur : string) (s : string) : list string :=
  match s with
  | EmptyString =>
      match cur with EmptyString => [] | _ => [cur] end
  | String c s' =>
      if Ascii.eqb c (ascii_of_nat 10) then cur :: lines_from EmptyString s'
      else lines_from (cur ++ String c EmptyString)%string s'
  end.

Definition lines (s : string) : list string := lines_from EmptyString s.

(** A text without newline: one line. *)
Fixpoint no_newline (s : string) : Prop :=
  match s with
  | EmptyString => True
  | String c s' => Ascii.eqb c (ascii_of_nat 10) = false /\ no_newline s'
  end.

(** ** The program's variables and the world it runs in *)

Inductive var : Type := Vn | Vmin | Vmax.

Record locals : Type := mkLocals { n : Z; min : Z; max : Z; num : Z }.

Definition store (x : var) (v : Z) (l : locals) : locals :=
  match x with
  | Vn => mkLocals v (min l) (max l) (num l)
  | Vmin => mkLocals (n l) v (max l) (num l)
  | Vmax => mkLocals (n l) (min l) v (num l)
  end.

Definition load (x : var) (l : locals) : Z :=
  match x with Vn => n l | Vmin => min l | Vmax => max l end.

Definition set_num (v : Z) (l : locals) : locals :=
  mkLocals (n l) (min l) (max l) v.

(** ** Standard input, as [scanf("%d", ...)] reads it

    Standard input is the text that is left to read.  The conversion [%d]
    skips white space, takes an optional sign and then the decimal digits
    that follow.  Without a digit nothing is converted: a sign that was
    read is consumed all the same, and the character that stopped the
    reading stays in the stream.  The digits are converted as [strtol]
    does, saturating at the bounds of [long] (64 bits), and the result is
    stored into the [int], which keeps its low 32 bits. *)

Definition LONG_MAX : Z := 9223372036854775807.
Definition LONG_MIN : Z := -9223372036854775808.

Definition is_space (c : ascii) : bool :=
  let k := nat_of_ascii c in
  Nat.eqb k 32 || (Nat.leb 9 k && Nat.leb k 13).

(** The value of a decimal digit: the characters 48 to 57. *)
Definition digit_value (c : ascii) : option Z :=
  let k := Z.of_nat (nat_of_ascii c) in
  if (48 <=? k) && (k <=? 57) then Some (k - 48) else None.

Fixpoint skip_space (s : string) : string :=
  match s with
  | EmptyString => EmptyString
  | String c s' => if is_space c then skip_space s' else s
  end.

(** The digits at the head of [s], after the value [acc] of the digits
    read so far ([any] says whether there was one), and what follows. *)
Fixpoint scan_digits (s : string) (acc : Z) (any : bool) : option Z * string :=
  match s with
  | EmptyString => (if any then Some acc else None, s)
  | String c s' =>
      match digit_value c with
      | Some d => scan_digits s' (10 * acc + d) true
      | None => (if any then Some acc else None, s)
      end
  end.

Definition strtol_int (z : Z) : Z := wrap (Z.max LONG_MIN (Z.min LONG_MAX z)).

Definition scan_signed (negative : bool) (s : string) : option Z * string :=
  (option_map (fun z => strtol_int (if negative then - z else z))
              (fst (scan_digits s 0 false)),
   snd (scan_digits s 0 false)).

(** What one [scanf("%d", ...)] converts, if anything, and the input it
    leaves. *)
Definition scan_d (s : string) : option Z * string :=
  match skip_space s with
  | EmptyString => (None, EmptyString)
  | String c s' =>
      if Ascii.eqb c "-" then scan_signed true s'
      else if Ascii.eqb c "+" then scan_signed false s'
      else scan_signed false (String c s')
  end.

(** Where the input, after its white space, is at its end or at a character
    that is neither a digit nor a sign, [scanf] converts nothing and leaves
    that character: the next [scanf] finds the same. *)
Definition starts_without_number (s : string) : Prop :=
  skip_space s = EmptyString \/
  exists c rest,
    skip_space s = String c rest /\
    digit_value c = None /\ Ascii.eqb c "-" = false /\ Ascii.eqb c "+" = false.

Inductive FILE : Type := RandomsTxt.

Inductive event : Type :=
| EPrintf (s : string)
| EScanf (x : var) (r : option Z)
| EFopen (ok : bool)
| ETime (t : Z)
| ESrand (seed : Z)
| ERand (r : Z)
| EFprintf (v : Z)
| EFclose.

(** What a trace shows: the values written to the file, the results of
    [rand()], the calls of [scanf], the seeds given to [srand]. *)
Definition written (tr : list event) : list Z :=
  flat_map (fun e => match e with EFprintf v => [v] | _ => [] end) tr.

Definition drawn (tr : list event) : list Z :=
  flat_map (fun e => match e with ERand r => [r] | _ => [] end) tr.

Definition scans (tr : list event) : list event :=
  filter (fun e => match e with EScanf _ _ => true | _ => false end) tr.

Definition seeds (tr : list event) : list Z :=
  flat_map (fun e => match e with ESrand s => [s] | _ => [] end) tr.

(** The iterations that a trace shows: those that called [rand], and
    those that came to write their value. *)
Definition iterations_begun (tr : list event) : nat := List.length (drawn tr).
Definition iterations_done (tr : list event) : nat := List.length (written tr).

(** ** The order of execution that the specification gives

    Start, ReadParameters, OpenOutput, then either Fail, ReportError,
    Exit(1), or Success, GenerateLoop, CloseOutput, ReportSuccess, Exit(0).
    A phase says which library call may come next. *)
Inductive phase : Type :=
| Prompt (x : var)        (* ReadParameters: the prompt of [x] is due *)
| Scan (x : var)          (* ReadParameters: the [scanf] of [x] is due *)
| OpenOutput
| ReportError             (* the file could not be opened *)
| ReadClock               (* the file is open *)
| Seed
| GenerateLoop            (* between two iterations *)
| WriteValue              (* in an iteration, after [rand()] *)
| ReportSuccess           (* the file is closed *)
| Exit (code : Z).

Definition Start : phase := Prompt Vn.

Definition phase_step (ph : phase) (e : event) : option phase :=
  match ph, e with
  | Prompt x, EPrintf _ => Some (Scan x)
  | Scan Vn, EScanf Vn _ => Some (Prompt Vmin)
  | Scan Vmin, EScanf Vmin _ => Some (Prompt Vmax)
  | Scan Vmax, EScanf Vmax _ => Some OpenOutput
  | OpenOutput, EFopen true => Some ReadClock
  | OpenOutput, EFopen false => Some ReportError
  | ReportError, EPrintf _ => Some (Exit 1)
  | ReadClock, ETime _ => Some Seed
  | Seed, ESrand _ => Some GenerateLoop
  | GenerateLoop, ERand _ => Some WriteValue
  | WriteValue, EFprintf _ => Some GenerateLoop
  | GenerateLoop, EFclose => Some ReportSuccess
  | ReportSuccess, EPrintf _ => Some (Exit 0)
  | _, _ => None
  end.

(** The phase that a trace leads to, if it follows the order. *)
Fixpoint phase_after (ph : phase) (tr : list event) : option phase :=
  match tr with
  | [] => Some ph
  | e :: tr' =>
      match phase_step ph e with
      | Some ph' => phase_after ph' tr'
      | None => None
      end
  end.

(** What the phases know of the past: how many [scanf] were made, whether
    the file was opened, whether it was closed. *)
Definition history (ph : phase) : nat * bool * bool :=
  match ph with
  | Prompt Vn | Scan Vn => (0%nat, false, false)
  | Prompt Vmin | Scan Vmin => (1%nat, false, false)
  | Prompt Vmax | Scan Vmax => (2%nat, false, false)
  | OpenOutput | ReportError => (3%nat, false, false)
  | ReadClock | Seed | GenerateLoop | WriteValue => (3%nat, true, false)
  | ReportSuccess => (3%nat, true, true)
  | Exit code => (3%nat, code =? 0, code =? 0)
  end.

Definition is_open_ok (e : event) : bool :=
  match e with EFopen true => true | _ => false end.

Definition is_close (e : event) : bool :=
  match e with EFclose => true | _ => false end.

Definition summary (tr : list event) : nat * bool * bool :=
  (List.length (scans tr), existsb is_open_ok tr, existsb is_close tr).

Inductive outcome (A : Type) : Type :=
| Done (a : A)
| Trap
| OutOfFuel.

Arguments Done {A} a.
Arguments Trap {A}.
Arguments OutOfFuel {A}.

Section Generator.

Context {P : Prng}.

Record world : Type := mkWorld {
  w_stdin : string;          (* what is left to read *)
  w_stdout : string;         (* what was printed *)
  w_can_open : bool;         (* can randoms.txt be opened for writing? *)
  w_file : option string;    (* randoms.txt, if it exists *)
  w_now : Z;                 (* what time(0) returns *)
  w_rng : rng;               (* the generator's hidden state *)
  w_junk : locals;           (* what the uninitialised variables hold *)
  w_trace : list event       (* the library calls made, oldest first *)
}.

Definition log (e : event) (w : world) : world :=
  mkWorld (w_stdin w) (w_stdout w) (w_can_open w) (w_file w) (w_now w)
          (w_rng w) (w_junk w) (w_trace w ++ [e]).

Definition set_stdin (i : string) (w : world) : world :=
  mkWorld i (w_stdout w) (w_can_open w) (w_file w) (w_now w)
          (w_rng w) (w_junk w) (w_trace w).

Definition set_stdout (o : string) (w : world) : world :=
  mkWorld (w_stdin w) o (w_can_open w) (w_file w) (w_now w)
          (w_rng w) (w_junk w) (w_trace w).

Definition set_file (c : option string) (w : world) : world :=
  mkWorld (w_stdin w) (w_stdout w) (w_can_open w) c (w_now w)
          (w_rng w) (w_junk w) (w_trace w).

Definition set_rng (s : rng) (w : world) : world :=
  mkWorld (w_stdin w) (w_stdout w) (w_can_open w) (w_file w) (w_now w)
          s (w_junk w) (w_trace w).

(** ** The monad: state passing, with faults *)

Definition M (A : Type) : Type := world -> outcome A * world.

Definition ret {A} (a : A) : M A := fun w => (Done a, w).

Definition bind {A B} (c : M A) (k : A -> M B) : M B :=
  fun w =>
    match c w with
    | (Done a, w') => k a w'
    | (Trap, w') => (Trap, w')
    | (OutOfFuel, w') => (OutOfFuel, w')
    end.

Definition trap {A} : M A := fun w => (Trap, w).
Definition out_of_fuel {A} : M A := fun w => (OutOfFuel, w).

Definition lift_partial {A} (o : option A) : M A :=
  match o with Some a => ret a | None => trap end.

Notation "x <- c ;; k" := (bind c (fun x => k))
  (at level 61, c at next level, right associativity).
Notation "c ;;; k" := (bind c (fun _ => k))
  (at level 61, right associativity).

(** ** The library calls the program makes *)

(** [int n, min, max, num;]: the variables start with whatever [int]
    values the stack holds. *)
Definition declare_locals : M locals :=
  fun w => (Done (mkLocals (wrap (n (w_junk w))) (wrap (min (w_junk w)))
                           (wrap (max (w_junk w))) (wrap (num (w_junk w)))), w).

Definition printf (s : string) : M unit :=
  fun w => (Done tt, log (EPrintf s) (set_stdout (w_stdout w ++ s)%string w)).

(** [scanf("%d", &x)]; its result is not looked at. *)
Definition scanf_d (x : var) (l : locals) : M locals :=
  fun w =>
    match scan_d (w_stdin w) with
    | (Some v, rest) =>
        (Done (store x v l), log (EScanf x (Some v)) (set_stdin rest w))
    | (None, rest) =>
        (Done l, log (EScanf x None) (set_stdin rest w))
    end.

(** [fopen("randoms.txt", "w")] *)
Definition fopen_w : M (option FILE) :=
  fun w =>
    if w_can_open w
    then (Done (Some RandomsTxt), log (EFopen true) (set_file (Some EmptyString) w))
    else (Done None, log (EFopen false) w).

Definition time0 : M Z :=
  fun w => (Done (w_now w), log (ETime (w_now w)) w).

Definition srand (seed : Z) : M unit :=
  fun w =>
    (Done tt, log (ESrand (to_unsigned seed))
                  (set_rng (srand_state (to_unsigned seed)) w)).

Definition rand : M Z :=
  fun w =>
    (Done (fst (rand_step (w_rng w))),
     log (ERand (fst (rand_step (w_rng w))))
         (set_rng (snd (rand_step (w_rng w))) w)).

Definition file_text (c : option string) : string :=
  match c with Some s => s | None => EmptyString end.

(** [fprintf(f, "%d\n", v)] *)
Definition fprintf_d (f : FILE) (v : Z) : M unit :=
  fun w =>
    (Done tt,
     log (EFprintf v)
         (set_file (Some (file_text (w_file w) ++ print_d v ++ newline)%string) w)).

Definition fclose (f : FILE) : M unit :=
  fun w => (Done tt, log EFclose w).

(** ** The program *)

Definition msg_count : string := "Сколько чисел сгенерировать: "%string.
Definition msg_min : string := "Минимум: "%string.
Definition msg_max : string := "Максимум: "%string.
Definition msg_error : string := ("Ошибка файла" ++ newline)%string.
Definition msg_done : string := ("Готово! Числа — в randoms.txt" ++ newline)%string.

(** [num = min + rand() % (max - min + 1); fprintf(f, "%d\n", num);] *)
Definition loop_body (f : FILE) (l : locals) : M locals :=
  r <- rand ;;
  m <- lift_partial (int_rem r (int_add (int_sub (max l) (min l)) 1)) ;;
  let l' := set_num (int_add (min l) m) l in
  fprintf_d f (num l') ;;;
  ret l'.

(** [for (int i = 0; i < n; ++i) { ... }], from the value [i] on. *)
Fixpoint for_loop (fuel : nat) (f : FILE) (i : Z) (l : locals) : M locals :=
  match fuel with
  | O => out_of_fuel
  | S fuel' =>
      if i <? n l then
        l' <- loop_body f l ;;
        for_loop fuel' f (int_add i 1) l'
      else ret l
  end.

Definition read_parameters : M locals :=
  l <- declare_locals ;;
  printf msg_count ;;;
  l <- scanf_d Vn l ;;
  printf msg_min ;;;
  l <- scanf_d Vmin l ;;
  printf msg_max ;;;
  scanf_d Vmax l.

Definition main (fuel : nat) : M Z :=
  l <- read_parameters ;;
  f <- fopen_w ;;
  match f with
  | None =>
      printf msg_error ;;;
      ret 1
  | Some f =>
      t <- time0 ;;
      srand t ;;;
      _ <- for_loop fuel f 0 l ;;
      fclose f ;;;
      printf msg_done ;;;
      ret 0
  end.

(** ** The runs of the program, in closed form

    What follows names the worlds that a run goes through; the lemmas of
    the second part prove that [main] reaches them. *)

(** The divisor [max - min + 1] and the value [min + r % (max - min + 1)]
    of one iteration, as the loop body computes them. *)
Definition modulus (l : locals) : Z := int_add (int_sub (max l) (min l)) 1.

Definition gen_value (l : locals) (r : Z) : Z :=
  int_add (min l) (Z.rem r (modulus l)).

(** The first [k] results of [rand()] from the state [s], and the state
    they leave. *)
Fixpoint draws (k : nat) (s : rng) : list Z :=
  match k with
  | O => []
  | S k' => fst (rand_step s) :: draws k' (snd (rand_step s))
  end.

Fixpoint rng_after (k : nat) (s : rng) : rng :=
  match k with
  | O => s
  | S k' => rng_after k' (snd (rand_step s))
  end.

(** The text that writing the values [vs] with ["%d\n"] makes. *)
Fixpoint render (vs : list Z) : string :=
  match vs with
  | [] => EmptyString
  | v :: vs' => (print_d v ++ newline ++ render vs')%string
  end.

Definition loop_events (l : locals) (rs : list Z) : list event :=
  flat_map (fun r => [ERand r; EFprintf (gen_value l r)]) rs.

(** The world after [j] iterations of the loop. *)
Definition after_loop (l : locals) (j : nat) (w : world) : world :=
  mkWorld (w_stdin w) (w_stdout w) (w_can_open w)
    (Some (file_text (w_file w)
           ++ render (map (gen_value l) (draws j (w_rng w))))%string)
    (w_now w) (rng_after j (w_rng w)) (w_junk w)
    (w_trace w ++ loop_events l (draws j (w_rng w))).

(** The world of an iteration that faults: [rand()] was called. *)
Definition trapped (w : world) : world :=
  log (ERand (fst (rand_step (w_rng w))))
      (set_rng (snd (rand_step (w_rng w))) w).

Definition parameters (w : world) : locals :=
  match fst (read_parameters w) with
  | Done l => l
  | _ => w_junk w
  end.

Definition after_read (w : world) : world := snd (read_parameters w).

Definition read_events (w : world) : list event :=
  skipn (List.length (w_trace w)) (w_trace (after_read w)).

Definition seed_of (w : world) : Z := to_unsigned (w_now w).

(** The world when the loop starts: the file is open and empty, the
    generator seeded. *)
Definition seeded (w : world) : world :=
  log (ESrand (seed_of w))
    (set_rng (srand_state (seed_of w))
       (log (ETime (w_now w))
          (log (EFopen true) (set_file (Some EmptyString) (after_read w))))).

(** [fclose(f); printf(...)] *)
Definition finish (w : world) : world :=
  log (EPrintf msg_done)
    (set_stdout (w_stdout w ++ msg_done)%string (log EFclose w)).

Definition open_failed (w : world) : world :=
  log (EPrintf msg_error)
    (set_stdout (w_stdout (after_read w) ++ msg_error)%string
       (log (EFopen false) (after_read w))).

(** The number of iterations that [i < n] allows from [i = 0]. *)
Definition count_of (w : world) : nat := Z.to_nat (n (parameters w)).

(** What the three [scanf] find, in terms of the input: each reads what
    the one before has left. *)
Definition scanned (x : var) (w : world) : option Z :=
  match x with
  | Vn => fst (scan_d (w_stdin w))
  | Vmin => fst (scan_d (snd (scan_d (w_stdin w))))
  | Vmax => fst (scan_d (snd (scan_d (snd (scan_d (w_stdin w))))))
  end.

(** The inputs on which no iteration faults. *)
Definition completes (w : world) : Prop :=
  n (parameters w) <= 0 \/ modulus (parameters w) <> 0.

Definition completed (w : world) : world :=
  finish (after_loop (parameters w) (count_of w) (seeded w)).

(** The values that a complete run writes. *)
Definition outputs (w : world) : list Z :=
  map (gen_value (parameters w)) (draws (count_of w) (srand_state (seed_of w))).

(** The states in which the loop tests [i < n], from the entry with the
    variables [l0] in the world [w0]. *)
Inductive loop_reaches (f : FILE) (l0 : locals) (w0 : world)
  : Z -> locals -> world -> Prop :=
| reaches_entry : loop_reaches f l0 w0 0 l0 w0
| reaches_next (i : Z) (l : locals) (w : world) (l' : locals) (w' : world) :
    loop_reaches f l0 w0 i l w ->
    (i <? n l) = true ->
    loop_body f l w = (Done l', w') ->
    loop_reaches f l0 w0 (int_add i 1) l' w'.

(** The ways a run of [main] with some fuel goes, each with the events
    that follow the reading of the parameters. *)
Inductive run_kind (fuel : nat) (w : world) : outcome Z -> list event -> Prop :=
| run_open_failed :
    w_can_open w = false ->
    run_kind fuel w (Done 1) [EFopen false; EPrintf msg_error]
| run_completed :
    w_can_open w = true -> completes w -> (count_of w < fuel)%nat ->
    run_kind fuel w (Done 0)
      ([EFopen true; ETime (w_now w); ESrand (seed_of w)]
       ++ loop_events (parameters w)
            (draws (count_of w) (srand_state (seed_of w)))
       ++ [EFclose; EPrintf msg_done])
| run_trapped :
    w_can_open w = true -> ~ completes w -> (0 < fuel)%nat ->
    run_kind fuel w Trap
      [EFopen true; ETime (w_now w); ESrand (seed_of w);
       ERand (fst (rand_step (srand_state (seed_of w))))]
| run_starved (j : nat) :
    w_can_open w = true -> (j <= fuel <= count_of w)%nat ->
    run_kind fuel w OutOfFuel
      ([EFopen true; ETime (w_now w); ESrand (seed_of w)]
       ++ loop_events (parameters w) (draws j (srand_state (seed_of w)))).

End Generator.

Arguments world {P}.
Arguments M {P} A.

(** ** A generator to run the program with: the sample [rand] of the C
    standard (ISO C, 7.22.2), with [RAND_MAX] 32767. *)

Definition sample_rand_step (s : Z) : Z * Z :=
  let s' := (s * 1103515245 + 12345) mod UINT_MODULUS in
  ((s' / 65536) mod 32768, s').

Lemma sample_rand_range (s : Z) : 0 <= fst (sample_rand_step s) <= INT_MAX.
Proof.
  unfold sample_rand_step, INT_MAX; cbn [fst].
  pose proof (Z.mod_pos_bound
    (((s * 1103515245 + 12345) mod UINT_MODULUS) / 65536) 32768 ltac:(lia)).
  lia.
Qed.

#[export] Instance sample_prng : Prng := {|
  rng := Z;
  srand_state := fun seed => seed;
  rand_step := sample_rand_step;
  rand_range := sample_rand_range
|}.

Definition sample_world (input : string) (can_open : bool) (now : Z)
  : @world sample_prng :=
  mkWorld input EmptyString can_open None now 1 (mkLocals 0 0 0 0) [].


(** Sample runs: five dice throws; an empty range, [max = min - 1], whose
    divisor [max - min + 1] is zero; a directory that cannot be written. *)
Definition dice_world : @world sample_prng :=
  sample_world "5 1 6" true 1000.

Definition zero_divisor_world : @world sample_prng :=
  sample_world "2 0 -1" true 1000.

Definition read_only_world : @world sample_prng :=
  sample_world "5 1 6" false 1000.

Definition no_numbers_world : @world sample_prng :=
  sample_world "0 1 6" true 1000.

Definition negative_count_world : @world sample_prng :=
  sample_world "-3 1 6" true 1000.

Definition constant_world : @world sample_prng :=
  sample_world "4 7 7" true 1000.

(** The dice again, from other surroundings: the same numbers written
    otherwise, more input, another clock with the same low 32 bits, other
    contents of the variables. *)
Definition other_dice_world : @world sample_prng :=
  mkWorld "  +5 01 6 x"%string "$ "%string true (Some "old"%string)
          (1000 + UINT_MODULUS) 77 (mkLocals 9 9 9 9) [].

(** Further sample runs: a reversed range; a range wider than [RAND_MAX];
    an input without a number while the variables hold 2, 1 and 6. *)
Definition reversed_world : @world sample_prng :=
  sample_world "3 10 2" true 1000.

Definition wide_world : @world sample_prng :=
  sample_world "3 0 100000" true 1000.

Definition garbage_world : @world sample_prng :=
  mkWorld "x 5"%string EmptyString true None 1000 1 (mkLocals 2 1 6 0) [].

(** * Properties *)

(** ** Arithmetic of [int] *)

Lemma wrap_spec (z : Z) :
  in_int (wrap z) /\ exists q, wrap z = z - q * UINT_MODULUS.
Proof.
  unfold wrap, in_int, INT_MIN, INT_MAX, UINT_MODULUS.
  pose proof (Z.mod_pos_bound (z - -2147483648) 4294967296 ltac:(lia)) as B.
  pose proof (Z.div_mod (z - -2147483648) 4294967296 ltac:(lia)) as E.
  split; [lia|].
  exists ((z - -2147483648) / 4294967296). lia.
Qed.

Lemma wrap_in_int (z : Z) : in_int (wrap z).
Proof. apply wrap_spec. Qed.

Lemma wrap_small (z : Z) : in_int z -> wrap z = z.
Proof.
  intros Hz. destruct (wrap_spec z) as [Hr [q Hq]].
  unfold in_int, INT_MIN, INT_MAX, UINT_MODULUS in *. lia.
Qed.

Lemma rem_nonneg_bounds (r m : Z) :
  0 <= r -> m <> 0 -> 0 <= Z.rem r m <= r /\ Z.rem r m < Z.abs m.
Proof.
  intros Hr Hm.
  assert (Habs : Z.rem r m = Z.rem r (Z.abs m)).
  { destruct (Z.abs_eq_or_opp m) as [E|E]; rewrite E; [reflexivity|].
    now rewrite Z.rem_opp_r. }
  rewrite Habs.
  pose proof (Z.rem_bound_pos r (Z.abs m) Hr ltac:(lia)) as B.
  split; [split; [lia|]|lia].
  rewrite Z.rem_mod_nonneg by lia.
  apply Z.mod_le; lia.
Qed.

Lemma int_rem_nonneg (r m : Z) :
  0 <= r -> int_rem r m = if m =? 0 then None else Some (Z.rem r m).
Proof.
  intros Hr. unfold int_rem.
  destruct (m =? 0); [reflexivity|].
  replace (r =? INT_MIN) with false; [reflexivity|].
  symmetry. apply Z.eqb_neq. unfold INT_MIN. lia.
Qed.

(** ** Text: lines and numerals *)

Lemma append_nil_r (s : string) : (s ++ EmptyString)%string = s.
Proof. induction s as [|c s IH]; cbn; [reflexivity|now rewrite IH]. Qed.

Lemma append_assoc (a b c : string) :
  ((a ++ b) ++ c)%string = (a ++ (b ++ c))%string.
Proof. induction a as [|x a IH]; cbn; [reflexivity|now rewrite IH]. Qed.

Lemma lines_from_line (s cur rest : string) :
  no_newline s ->
  lines_from cur (s ++ newline ++ rest)
  = (cur ++ s)%string :: lines_from EmptyString rest.
Proof.
  revert cur. induction s as [|c s IH]; intros cur Hs.
  - cbn. now rewrite append_nil_r.
  - destruct Hs as [Hc Hs]. cbn [append lines_from]. rewrite Hc.
    rewrite IH by assumption. now rewrite append_assoc.
Qed.

Lemma no_newline_uint (d : Decimal.uint) :
  no_newline (NilEmpty.string_of_uint d).
Proof. induction d; cbn; auto. Qed.

Lemma no_newline_print_d (v : Z) : no_newline (print_d v).
Proof.
  unfold print_d.
  destruct (Z.to_int v) as [d|d]; cbn [NilZero.string_of_int];
    [|split; [reflexivity|]];
    (destruct d; try (cbn; auto; fail); apply no_newline_uint).
Qed.

Lemma parse_print_d (v : Z) : parse_d (print_d v) = Some v.
Proof.
  unfold parse_d, print_d.
  rewrite NilZero.isi.
  - cbn. now rewrite DecimalZ.of_to.
  - destruct v; cbn; try discriminate.
    intros [= E]. now apply (DecimalPos.Unsigned.to_uint_nonnil p).
  - destruct v; cbn; try discriminate.
    intros [= E]. now apply (DecimalPos.Unsigned.to_uint_nonnil p).
Qed.

Section Runs.

Context {P : Prng}.

Lemma loop_body_eq (f : FILE) (l : locals) (w : world) :
  loop_body f l w =
  if modulus l =? 0 then (Trap, trapped w)
  else (Done (set_num (gen_value l (fst (rand_step (w_rng w)))) l),
        after_loop l 1 w).
Proof.
  unfold loop_body, bind, rand.
  rewrite int_rem_nonneg by apply rand_range.
  fold (modulus l). destruct (modulus l =? 0); [reflexivity|].
  cbn. unfold after_loop, log, set_file, set_rng, fprintf_d, ret. cbn.
  rewrite <- app_assoc. reflexivity.
Qed.

Lemma after_loop_0 (l : locals) (w : world) (t : string) :
  w_file w = Some t -> after_loop l 0 w = w.
Proof.
  intros Ht. destruct w; cbn in *. subst. unfold after_loop; cbn.
  now rewrite append_nil_r, app_nil_r.
Qed.

Lemma after_loop_S (l : locals) (j : nat) (w : world) (v : Z) :
  after_loop (set_num v l) j (after_loop l 1 w) = after_loop l (S j) w.
Proof.
  unfold after_loop. cbn.
  rewrite !append_assoc, <- !app_assoc. reflexivity.
Qed.

Lemma after_loop_file (l : locals) (j : nat) (w : world) :
  exists t, w_file (after_loop l j w) = Some t.
Proof. eexists; reflexivity. Qed.

(** The loop, for every fuel: it makes [min fuel k] iterations, where [k]
    is the number the test allows, unless the divisor is zero. *)
Lemma for_loop_eq (fuel : nat) (f : FILE) :
  forall (i : Z) (l : locals) (w : world) (t : string),
    w_file w = Some t ->
    INT_MIN <= i -> n l <= INT_MAX ->
    n l <= i \/ modulus l <> 0 ->
    exists l',
      n l' = n l /\ min l' = min l /\ max l' = max l /\
      for_loop fuel f i l w =
      (if (Z.to_nat (n l - i) <? fuel)%nat then Done l' else OutOfFuel,
       after_loop l (Nat.min fuel (Z.to_nat (n l - i))) w).
Proof.
  induction fuel as [|fuel IH]; intros i l w t Ht Hi Hn Hm.
  - exists l. cbn. now rewrite (after_loop_0 l w t).
  - cbn [for_loop]. destruct (Z.ltb_spec i (n l)) as [Hlt|Hge].
    + assert (Hmod : modulus l <> 0) by lia.
      unfold bind. rewrite loop_body_eq.
      apply Z.eqb_neq in Hmod. rewrite Hmod.
      assert (Ei : int_add i 1 = i + 1).
      { apply wrap_small. unfold in_int. lia. }
      rewrite Ei.
      set (l1 := set_num _ l).
      destruct (after_loop_file l 1 w) as [t1 Ht1].
      destruct (IH (i + 1) l1 (after_loop l 1 w) t1 Ht1) as (l' & En & Emin & Emax & E).
      * lia.
      * exact Hn.
      * right. apply Z.eqb_neq in Hmod. exact Hmod.
      * exists l'. repeat split; try assumption.
        rewrite E. unfold l1 at 2. rewrite after_loop_S.
        change (n l1) with (n l).
        replace (Z.to_nat (n l - i)) with (S (Z.to_nat (n l - (i + 1)))) by lia.
        reflexivity.
    + exists l. replace (Z.to_nat (n l - i)) with O by lia.
      cbn. now rewrite (after_loop_0 l w t).
Qed.

(** With a zero divisor the first iteration faults. *)
Lemma for_loop_trap (fuel : nat) (f : FILE) (i : Z) (l : locals) (w : world) :
  i < n l -> modulus l = 0 ->
  for_loop (S fuel) f i l w = (Trap, trapped w).
Proof.
  intros Hlt Hm. cbn [for_loop].
  apply Z.ltb_lt in Hlt. rewrite Hlt.
  unfold bind. rewrite loop_body_eq. rewrite Hm. reflexivity.
Qed.

(** *** Reading the parameters *)

(** Running the reading phase: only the calls and the record projections
    are unfolded, what [scan_d] finds is left as it is. *)
Ltac run_read :=
  cbv [parameters after_read read_events scanned read_parameters bind ret
       declare_locals printf scanf_d log set_stdin set_stdout store load
       w_stdin w_stdout w_can_open w_file w_now w_rng w_junk w_trace
       n min max num fst snd].

Ltac by_input w :=
  destruct w as [? ? ? ? ? ? ? ?]; run_read.

Ltac split_scans :=
  repeat match goal with
         | |- context [scan_d ?s] =>
             let r := fresh "r" in
             let rest := fresh "rest" in
             destruct (scan_d s) as [[r|] rest];
             cbv beta iota delta [fst snd]
         end.

Lemma read_parameters_eq (w : world) :
  read_parameters w = (Done (parameters w), after_read w).
Proof. by_input w; split_scans; reflexivity. Qed.

Lemma skipn_length_app {A} (a b : list A) : skipn (List.length a) (a ++ b) = b.
Proof. induction a as [|x a IH]; cbn; auto. Qed.

Lemma after_read_frame (w : world) :
  w_can_open (after_read w) = w_can_open w /\
  w_file (after_read w) = w_file w /\
  w_now (after_read w) = w_now w /\
  w_rng (after_read w) = w_rng w /\
  w_stdout (after_read w) = (w_stdout w ++ msg_count ++ msg_min ++ msg_max)%string.
Proof.
  by_input w; split_scans; rewrite !append_assoc; repeat split; reflexivity.
Qed.

Lemma read_events_eq (w : world) :
  read_events w =
  [EPrintf msg_count; EScanf Vn (scanned Vn w);
   EPrintf msg_min; EScanf Vmin (scanned Vmin w);
   EPrintf msg_max; EScanf Vmax (scanned Vmax w)].
Proof.
  by_input w; split_scans; rewrite <- !app_assoc; apply skipn_length_app.
Qed.

Lemma after_read_trace (w : world) :
  w_trace (after_read w) = w_trace w ++ read_events w.
Proof.
  rewrite read_events_eq.
  by_input w; split_scans; rewrite <- !app_assoc; reflexivity.
Qed.

(** A variable holds what its [scanf] converted, or else what it held. *)
Lemma parameters_scanned (x : var) (w : world) :
  load x (parameters w) =
  match scanned x w with
  | Some v => v
  | None => wrap (load x (w_junk w))
  end.
Proof.
  destruct x; by_input w; split_scans; reflexivity.
Qed.

Lemma scan_d_in_int (s : string) (v : Z) :
  fst (scan_d s) = Some v -> in_int v.
Proof.
  unfold scan_d, scan_signed.
  destruct (skip_space s) as [|c s']; [discriminate|].
  destruct (Ascii.eqb c "-"); [|destruct (Ascii.eqb c "+")]; cbn [fst];
    match goal with
    | |- context [scan_digits ?t 0 false] =>
        destruct (fst (scan_digits t 0 false)); cbn [option_map];
        [intros [= <-]; apply wrap_in_int|discriminate]
    end.
Qed.

Lemma scanned_in_int (x : var) (w : world) (v : Z) :
  scanned x w = Some v -> in_int v.
Proof. destruct x; apply scan_d_in_int. Qed.

Lemma parameters_in_int (w : world) :
  in_int (n (parameters w)) /\ in_int (min (parameters w)) /\
  in_int (max (parameters w)).
Proof.
  pose proof (parameters_scanned Vn w) as Hn.
  pose proof (parameters_scanned Vmin w) as Hmin.
  pose proof (parameters_scanned Vmax w) as Hmax.
  cbn [load] in Hn, Hmin, Hmax.
  rewrite Hn, Hmin, Hmax.
  destruct (scanned Vn w) eqn:En; destruct (scanned Vmin w) eqn:Emin;
    destruct (scanned Vmax w) eqn:Emax;
    repeat split; try apply wrap_in_int;
    eapply scanned_in_int; eassumption.
Qed.

(** *** The runs of [main] *)

Lemma main_eq (fuel : nat) (w : world) :
  main fuel w =
  if w_can_open w then
    match for_loop fuel RandomsTxt 0 (parameters w) (seeded w) with
    | (Done _, w2) => (Done 0, finish w2)
    | (Trap, w2) => (Trap, w2)
    | (OutOfFuel, w2) => (OutOfFuel, w2)
    end
  else (Done 1, open_failed w).
Proof.
  unfold main. unfold bind at 1. rewrite read_parameters_eq.
  unfold bind at 1. unfold fopen_w.
  destruct (after_read_frame w) as (Eco & _ & Enow & _).
  rewrite Eco. destruct (w_can_open w).
  - unfold bind, time0, srand, seeded, seed_of.
    cbn [log set_file set_rng w_stdin w_stdout w_can_open w_file w_now w_rng
         w_junk w_trace fst snd].
    rewrite Enow.
    destruct (for_loop fuel RandomsTxt 0 (parameters w) _) as [[l'| |] w2];
      reflexivity.
  - reflexivity.
Qed.

Lemma main_completes (fuel : nat) (w : world) :
  w_can_open w = true -> completes w ->
  main fuel w =
  if (count_of w <? fuel)%nat then (Done 0, completed w)
  else (OutOfFuel, after_loop (parameters w) fuel (seeded w)).
Proof.
  intros Hco Hc. rewrite main_eq, Hco.
  destruct (parameters_in_int w) as (Hn & _).
  destruct (for_loop_eq fuel RandomsTxt 0 (parameters w) (seeded w) EmptyString)
    as (l' & _ & _ & _ & E).
  - reflexivity.
  - unfold INT_MIN; lia.
  - apply Hn.
  - destruct Hc; [left; lia | now right].
  - rewrite E. rewrite Z.sub_0_r. fold (count_of w). unfold completed.
    destruct (Nat.ltb_spec (count_of w) fuel).
    + now rewrite Nat.min_r by lia.
    + now rewrite Nat.min_l by lia.
Qed.

Lemma main_traps (fuel : nat) (w : world) :
  w_can_open w = true -> ~ completes w ->
  main fuel w =
  match fuel with
  | O => (OutOfFuel, seeded w)
  | S _ => (Trap, trapped (seeded w))
  end.
Proof.
  intros Hco Hc. rewrite main_eq, Hco.
  destruct fuel as [|fuel]; [reflexivity|].
  rewrite for_loop_trap; [reflexivity| |]; unfold completes in Hc; lia.
Qed.

Lemma completes_dec (w : world) : {completes w} + {~ completes w}.
Proof.
  unfold completes.
  destruct (Z_le_gt_dec (n (parameters w)) 0); [left; now left|].
  destruct (Z.eq_dec (modulus (parameters w)) 0); [right; lia|left; now right].
Qed.

(** A run that returns 0 opened the file and made all its iterations. *)
Lemma main_done_0 (fuel : nat) (w w' : world) :
  main fuel w = (Done 0, w') ->
  w_can_open w = true /\ completes w /\ (count_of w < fuel)%nat /\
  w' = completed w.
Proof.
  intros E. destruct (w_can_open w) eqn:Hco.
  - destruct (completes_dec w) as [Hc|Hc].
    + rewrite main_completes in E by assumption.
      destruct (Nat.ltb_spec (count_of w) fuel); [|discriminate].
      injection E as <-. auto.
    + rewrite main_traps in E by assumption. destruct fuel; discriminate.
  - rewrite main_eq, Hco in E. discriminate.
Qed.

(** Every run that returns: the two ways. *)
Lemma main_done (fuel : nat) (w w' : world) (code : Z) :
  main fuel w = (Done code, w') ->
  (w_can_open w = false /\ code = 1 /\ w' = open_failed w) \/
  (w_can_open w = true /\ code = 0 /\ completes w /\
   (count_of w < fuel)%nat /\ w' = completed w).
Proof.
  intros E. destruct (w_can_open w) eqn:Hco.
  - right. destruct (completes_dec w) as [Hc|Hc].
    + rewrite main_completes in E by assumption.
      destruct (Nat.ltb_spec (count_of w) fuel); [|discriminate].
      injection E as <- <-. auto.
    + rewrite main_traps in E by assumption. destruct fuel; discriminate.
  - left. rewrite main_eq, Hco in E. injection E as <- <-. auto.
Qed.

(** *** What the closed forms hold *)

Ltac run_io :=
  cbv [completed finish open_failed seeded trapped after_loop log
       set_stdin set_stdout set_file set_rng file_text
       w_stdin w_stdout w_can_open w_file w_now w_rng w_junk w_trace].

Lemma completed_trace (w : world) :
  w_trace (completed w) =
  w_trace w ++ read_events w
  ++ [EFopen true; ETime (w_now w); ESrand (seed_of w)]
  ++ loop_events (parameters w) (draws (count_of w) (srand_state (seed_of w)))
  ++ [EFclose; EPrintf msg_done].
Proof.
  pose proof (after_read_trace w) as E. revert E. run_io. intros ->.
  rewrite <- !app_assoc. reflexivity.
Qed.

Lemma completed_file (w : world) : w_file (completed w) = Some (render (outputs w)).
Proof. reflexivity. Qed.

Lemma completed_stdout (w : world) :
  w_stdout (completed w) =
  (w_stdout w ++ msg_count ++ msg_min ++ msg_max ++ msg_done)%string.
Proof.
  destruct (after_read_frame w) as (_ & _ & _ & _ & E). revert E. run_io.
  intros ->. now rewrite !append_assoc.
Qed.

Lemma open_failed_trace (w : world) :
  w_trace (open_failed w) =
  w_trace w ++ read_events w ++ [EFopen false; EPrintf msg_error].
Proof.
  pose proof (after_read_trace w) as E. revert E. run_io. intros ->.
  rewrite <- !app_assoc. reflexivity.
Qed.

Lemma open_failed_file (w : world) : w_file (open_failed w) = w_file w.
Proof. destruct (after_read_frame w) as (_ & E & _). exact E. Qed.

Lemma open_failed_stdout (w : world) :
  w_stdout (open_failed w) =
  (w_stdout w ++ msg_count ++ msg_min ++ msg_max ++ msg_error)%string.
Proof.
  destruct (after_read_frame w) as (_ & _ & _ & _ & E). revert E. run_io.
  intros ->. now rewrite !append_assoc.
Qed.

Lemma trapped_trace (w : world) :
  w_trace (trapped (seeded w)) =
  w_trace w ++ read_events w
  ++ [EFopen true; ETime (w_now w); ESrand (seed_of w);
      ERand (fst (rand_step (srand_state (seed_of w))))].
Proof.
  pose proof (after_read_trace w) as E. revert E. run_io. intros ->.
  rewrite <- !app_assoc. reflexivity.
Qed.

(** *** What a trace shows *)

Lemma written_app (a b : list event) : written (a ++ b) = written a ++ written b.
Proof. apply flat_map_app. Qed.

Lemma drawn_app (a b : list event) : drawn (a ++ b) = drawn a ++ drawn b.
Proof. apply flat_map_app. Qed.

Lemma seeds_app (a b : list event) : seeds (a ++ b) = seeds a ++ seeds b.
Proof. apply flat_map_app. Qed.

Lemma scans_app (a b : list event) : scans (a ++ b) = scans a ++ scans b.
Proof. apply filter_app. Qed.

Lemma loop_events_shown (l : locals) (rs : list Z) :
  written (loop_events l rs) = map (gen_value l) rs /\
  drawn (loop_events l rs) = rs /\
  seeds (loop_events l rs) = [] /\
  scans (loop_events l rs) = [].
Proof.
  induction rs as [|r rs (IHw & IHd & IHs & IHc)]; [now cbn|].
  cbn. fold (loop_events l rs). fold (written (loop_events l rs)).
  fold (drawn (loop_events l rs)). fold (seeds (loop_events l rs)).
  fold (scans (loop_events l rs)).
  now rewrite IHw, IHd, IHs, IHc.
Qed.

Lemma read_events_shown (w : world) :
  written (read_events w) = [] /\ drawn (read_events w) = [] /\
  seeds (read_events w) = [] /\
  scans (read_events w) =
  [EScanf Vn (scanned Vn w); EScanf Vmin (scanned Vmin w);
   EScanf Vmax (scanned Vmax w)].
Proof. rewrite read_events_eq. repeat split; reflexivity. Qed.

Lemma draws_length (k : nat) (s : rng) : List.length (draws k s) = k.
Proof. revert s. induction k as [|k IH]; intros s; cbn; auto. Qed.

Lemma draws_range (k : nat) (s : rng) :
  Forall (fun r => 0 <= r <= INT_MAX) (draws k s).
Proof.
  revert s. induction k as [|k IH]; intros s; cbn; constructor.
  - apply rand_range.
  - apply IH.
Qed.

Lemma outputs_length (w : world) : List.length (outputs w) = count_of w.
Proof. unfold outputs. now rewrite length_map, draws_length. Qed.

(** *** The text of the file *)

Lemma lines_render (vs : list Z) : lines (render vs) = map print_d vs.
Proof.
  unfold lines. induction vs as [|v vs IH]; [reflexivity|].
  cbn [render map]. rewrite lines_from_line by apply no_newline_print_d.
  now rewrite IH.
Qed.

(** *** The value of an iteration *)

(** With [min <= max] the value lies between them, also when
    [max - min + 1] wraps around: the divisor is then negative, of absolute
    value 2^32 - (max - min + 1), which is at most [max - min + 1]. *)
Lemma gen_value_range (l : locals) (r : Z) :
  in_int (min l) -> in_int (max l) -> min l <= max l ->
  0 <= r <= INT_MAX -> modulus l <> 0 ->
  min l <= gen_value l r <= max l.
Proof.
  unfold gen_value, modulus, int_add, int_sub.
  intros Hlo Hhi Hle Hr Hm.
  destruct (wrap_spec (max l - min l)) as [R1 [q1 E1]].
  set (d := wrap (max l - min l)) in *.
  destruct (wrap_spec (d + 1)) as [R2 [q2 E2]].
  set (m := wrap (d + 1)) in *.
  destruct (rem_nonneg_bounds r m ltac:(lia) Hm) as [B1 B2].
  destruct (wrap_spec (min l + Z.rem r m)) as [R3 [q3 E3]].
  set (v := wrap (min l + Z.rem r m)) in *.
  unfold in_int, INT_MIN, INT_MAX, UINT_MODULUS in *. lia.
Qed.

(** Where [max - min + 1] does not wrap around, the value is the one of
    the specification: [min + (r mod (max - min + 1))]. *)
Lemma gen_value_spec (l : locals) (r : Z) :
  in_int (min l) -> in_int (max l) -> min l <= max l ->
  max l - min l < INT_MAX -> 0 <= r ->
  gen_value l r = min l + r mod (max l - min l + 1).
Proof.
  intros Hlo Hhi Hle Hw Hr. unfold gen_value, modulus, int_add, int_sub.
  unfold in_int, INT_MIN, INT_MAX in *.
  rewrite (wrap_small (max l - min l)) by (unfold in_int, INT_MIN, INT_MAX; lia).
  rewrite (wrap_small (max l - min l + 1)) by (unfold in_int, INT_MIN, INT_MAX; lia).
  rewrite Z.rem_mod_nonneg by lia.
  pose proof (Z.mod_pos_bound r (max l - min l + 1) ltac:(lia)).
  apply wrap_small. unfold in_int, INT_MIN, INT_MAX; lia.
Qed.

Lemma gen_value_ext (l1 l2 : locals) (r : Z) :
  min l1 = min l2 -> max l1 = max l2 -> gen_value l1 r = gen_value l2 r.
Proof. unfold gen_value, modulus. now intros -> ->. Qed.

(** With equal bounds the divisor is 1 and the value is [min]. *)
Lemma gen_value_equal_bounds (l : locals) (r : Z) :
  in_int (min l) -> min l = max l -> gen_value l r = min l.
Proof.
  intros Hlo E. unfold gen_value, modulus, int_add, int_sub.
  rewrite <- E, Z.sub_diag.
  change (wrap (wrap 0 + 1)) with 1.
  rewrite Z.rem_1_r, Z.add_0_r. now apply wrap_small.
Qed.

Lemma modulus_equal_bounds (l : locals) : min l = max l -> modulus l = 1.
Proof.
  intros E. unfold modulus, int_add, int_sub.
  rewrite <- E, Z.sub_diag. reflexivity.
Qed.

(** *** What the traces of the runs show *)

Lemma completed_shown (w : world) :
  written (w_trace (completed w)) = written (w_trace w) ++ outputs w /\
  drawn (w_trace (completed w)) =
    drawn (w_trace w) ++ draws (count_of w) (srand_state (seed_of w)) /\
  seeds (w_trace (completed w)) = seeds (w_trace w) ++ [seed_of w] /\
  scans (w_trace (completed w)) =
    scans (w_trace w) ++
    [EScanf Vn (scanned Vn w); EScanf Vmin (scanned Vmin w);
     EScanf Vmax (scanned Vmax w)].
Proof.
  rewrite completed_trace.
  destruct (read_events_shown w) as (Rw & Rd & Rs & Rc).
  destruct (loop_events_shown (parameters w)
              (draws (count_of w) (srand_state (seed_of w))))
    as (Lw & Ld & Ls & Lc).
  rewrite !written_app, !drawn_app, !seeds_app, !scans_app.
  rewrite Rw, Rd, Rs, Rc, Lw, Ld, Ls, Lc. cbn.
  rewrite !app_nil_r. repeat split; reflexivity.
Qed.

Lemma open_failed_shown (w : world) :
  written (w_trace (open_failed w)) = written (w_trace w) /\
  drawn (w_trace (open_failed w)) = drawn (w_trace w) /\
  seeds (w_trace (open_failed w)) = seeds (w_trace w) /\
  scans (w_trace (open_failed w)) =
    scans (w_trace w) ++
    [EScanf Vn (scanned Vn w); EScanf Vmin (scanned Vmin w);
     EScanf Vmax (scanned Vmax w)].
Proof.
  rewrite open_failed_trace.
  destruct (read_events_shown w) as (Rw & Rd & Rs & Rc).
  rewrite !written_app, !drawn_app, !seeds_app, !scans_app.
  rewrite Rw, Rd, Rs, Rc. cbn.
  rewrite !app_nil_r. repeat split; reflexivity.
Qed.

Lemma trapped_shown (w : world) :
  written (w_trace (trapped (seeded w))) = written (w_trace w) /\
  drawn (w_trace (trapped (seeded w))) =
    drawn (w_trace w) ++ [fst (rand_step (srand_state (seed_of w)))] /\
  scans (w_trace (trapped (seeded w))) =
    scans (w_trace w) ++
    [EScanf Vn (scanned Vn w); EScanf Vmin (scanned Vmin w);
     EScanf Vmax (scanned Vmax w)].
Proof.
  rewrite trapped_trace.
  destruct (read_events_shown w) as (Rw & Rd & Rs & Rc).
  rewrite !written_app, !drawn_app, !scans_app.
  rewrite Rw, Rd, Rc. cbn.
  rewrite !app_nil_r. repeat split; reflexivity.
Qed.

(** *** Every run, with its events *)

Lemma seeded_trace (w : world) :
  w_trace (seeded w) =
  w_trace w ++ read_events w
  ++ [EFopen true; ETime (w_now w); ESrand (seed_of w)].
Proof.
  pose proof (after_read_trace w) as E. revert E. run_io. intros ->.
  rewrite <- !app_assoc. reflexivity.
Qed.

Lemma after_loop_trace (l : locals) (j : nat) (w : world) :
  w_trace (after_loop l j (seeded w)) =
  w_trace w ++ read_events w
  ++ [EFopen true; ETime (w_now w); ESrand (seed_of w)]
  ++ loop_events l (draws j (srand_state (seed_of w))).
Proof.
  pose proof (seeded_trace w) as E.
  change (w_trace (after_loop l j (seeded w)))
    with (w_trace (seeded w)
          ++ loop_events l (draws j (srand_state (seed_of w)))).
  rewrite E, <- !app_assoc. reflexivity.
Qed.

Lemma main_cases (fuel : nat) (w : world) :
  exists tail,
    run_kind fuel w (fst (main fuel w)) tail /\
    w_trace (snd (main fuel w)) = w_trace w ++ read_events w ++ tail.
Proof.
  destruct (w_can_open w) eqn:Hco.
  - destruct (completes_dec w) as [Hc|Hc].
    + rewrite main_completes by assumption.
      destruct (Nat.ltb_spec (count_of w) fuel) as [Hlt|Hge]; cbn [fst snd].
      * eexists. split; [now apply run_completed|]. apply completed_trace.
      * eexists. split; [apply (run_starved fuel w fuel); auto; lia|].
        apply after_loop_trace.
    + rewrite main_traps by assumption. destruct fuel as [|fuel]; cbn [fst snd].
      * eexists. split; [apply (run_starved O w O); auto; lia|].
        cbn [draws loop_events flat_map]. rewrite app_nil_r. apply seeded_trace.
      * eexists. split; [apply run_trapped; auto; lia|]. apply trapped_trace.
  - rewrite main_eq, Hco. cbn [fst snd].
    eexists. split; [now apply run_open_failed|]. apply open_failed_trace.
Qed.

(** *** The order of the events *)

Lemma phase_after_app (ph : phase) (a b : list event) :
  phase_after ph (a ++ b) =
  match phase_after ph a with
  | Some ph' => phase_after ph' b
  | None => None
  end.
Proof.
  revert ph. induction a as [|e a IH]; intros ph; cbn; [reflexivity|].
  destruct (phase_step ph e); [apply IH|reflexivity].
Qed.

Lemma phase_after_loop (l : locals) (rs : list Z) :
  phase_after GenerateLoop (loop_events l rs) = Some GenerateLoop.
Proof. induction rs as [|r rs IH]; cbn; auto. Qed.

Lemma phase_after_read (w : world) :
  phase_after Start (read_events w) = Some OpenOutput.
Proof. rewrite read_events_eq. reflexivity. Qed.

Lemma run_kind_phase (fuel : nat) (w : world) (o : outcome Z) (tail : list event) :
  run_kind fuel w o tail ->
  exists ph,
    phase_after OpenOutput tail = Some ph /\
    match o with
    | Done code => ph = Exit code
    | Trap => ph = WriteValue
    | OutOfFuel => ph = GenerateLoop
    end.
Proof.
  intros [Hco|Hco Hc Hk|Hco Hc Hk|j Hco Hk].
  - exists (Exit 1). now cbn.
  - exists (Exit 0). cbn [app phase_after phase_step].
    rewrite phase_after_app, phase_after_loop. now cbn.
  - exists WriteValue. now cbn.
  - exists GenerateLoop. cbn [app phase_after phase_step].
    now rewrite phase_after_loop.
Qed.

Lemma summary_snoc (a : list event) (e : event) :
  summary (a ++ [e]) =
  (match e with
   | EScanf _ _ => S (fst (fst (summary a)))
   | _ => fst (fst (summary a))
   end,
   snd (fst (summary a)) || is_open_ok e,
   snd (summary a) || is_close e).
Proof.
  unfold summary. rewrite scans_app, length_app, !existsb_app. cbn.
  rewrite !orb_false_r.
  destruct e; cbn; f_equal; try f_equal; lia.
Qed.

Lemma phase_after_snoc (ph : phase) (a : list event) (e : event) :
  phase_after ph (a ++ [e]) =
  match phase_after ph a with
  | Some ph' => phase_step ph' e
  | None => None
  end.
Proof.
  rewrite phase_after_app. destruct (phase_after ph a) as [ph'|]; [|reflexivity].
  cbn. now destruct (phase_step ph' e).
Qed.

Lemma phase_step_history (ph ph' : phase) (e : event) (s : nat * bool * bool) :
  phase_step ph e = Some ph' ->
  s = history ph ->
  (match e with EScanf _ _ => S (fst (fst s)) | _ => fst (fst s) end,
   snd (fst s) || is_open_ok e, snd s || is_close e) = history ph'.
Proof.
  intros E ->.
  destruct ph as [[]|[]| | | | | | | |code]; destruct e as [?|[] ?|[]|?|?|?|?|];
    cbn in E; try discriminate; injection E as <-; reflexivity.
Qed.

(** A trace that follows the order has the history of its phase. *)
Lemma order_history (tr : list event) (ph : phase) :
  phase_after Start tr = Some ph -> summary tr = history ph.
Proof.
  revert ph. induction tr as [|e tr IH] using rev_ind; intros ph E.
  - injection E as <-. reflexivity.
  - rewrite phase_after_snoc in E.
    destruct (phase_after Start tr) as [ph0|]; [|discriminate].
    rewrite summary_snoc.
    apply (phase_step_history ph0 ph e); [exact E|]. now apply IH.
Qed.

Lemma phase_after_split (ph0 ph : phase) (a c : list event) (e : event) :
  phase_after ph0 (a ++ e :: c) = Some ph ->
  exists ph1 ph2,
    phase_after ph0 a = Some ph1 /\ phase_step ph1 e = Some ph2 /\
    phase_after ph2 c = Some ph.
Proof.
  rewrite phase_after_app. destruct (phase_after ph0 a) as [ph1|]; [|discriminate].
  cbn. destruct (phase_step ph1 e) as [ph2|] eqn:E; [|discriminate].
  intros H. now exists ph1, ph2.
Qed.

Lemma existsb_open_In (a : list event) :
  existsb is_open_ok a = true -> In (EFopen true) a.
Proof.
  rewrite existsb_exists. intros (e & Hin & He).
  destruct e as [?|? ?|[]|?|?|?|?|]; try discriminate. exact Hin.
Qed.

Lemma existsb_close_In (a : list event) :
  existsb is_close a = false -> ~ In EFclose a.
Proof.
  intros H Hin. assert (E : existsb is_close a = true).
  { apply existsb_exists. now exists EFclose. }
  congruence.
Qed.

(** In a trace that follows the order, the file is opened after the three
    [scanf] and none comes later; [rand] and [fprintf] are called after the
    file was opened, and not after it was closed. *)
Lemma order_facts (tr : list event) (ph : phase) :
  phase_after Start tr = Some ph ->
  (forall a b c, tr = a ++ EFopen b :: c ->
     List.length (scans a) = 3%nat /\ scans c = []) /\
  (forall a r c, tr = a ++ ERand r :: c ->
     In (EFopen true) a /\ ~ In EFclose a) /\
  (forall a v c, tr = a ++ EFprintf v :: c ->
     In (EFopen true) a /\ ~ In EFclose a).
Proof.
  intros E. repeat split.
  - destruct (phase_after_split Start ph a c (EFopen b)) as (ph1 & ph2 & E1 & E2 & _);
      [now subst|].
    apply order_history in E1.
    destruct ph1 as [[]|[]| | | | | | | |code]; try discriminate.
    injection E1 as E1 _ _. exact E1.
  - subst tr.
    destruct (phase_after_split Start ph a c (EFopen b) E)
      as (ph1 & ph2 & E1 & E2 & _).
    apply order_history in E1. apply order_history in E.
    destruct ph1 as [[]|[]| | | | | | | |code]; try discriminate.
    injection E1 as E1 _ _.
    unfold summary in E. rewrite scans_app, length_app in E.
    change (scans (EFopen b :: c)) with (scans c) in E.
    assert (Hle : (fst (fst (history ph)) <= 3)%nat).
    { destruct ph as [[]|[]| | | | | | | |code']; cbn; lia. }
    rewrite <- E in Hle. cbn [fst] in Hle.
    destruct (scans c); [reflexivity|cbn [List.length] in Hle; lia].
  - subst tr.
    destruct (phase_after_split Start ph a c (ERand r) E)
      as (ph1 & ph2 & E1 & E2 & _).
    apply order_history in E1.
    destruct ph1 as [[]|[]| | | | | | | |code]; try discriminate.
    injection E1 as _ E1 _. now apply existsb_open_In.
  - subst tr.
    destruct (phase_after_split Start ph a c (ERand r) E)
      as (ph1 & ph2 & E1 & E2 & _).
    apply order_history in E1.
    destruct ph1 as [[]|[]| | | | | | | |code]; try discriminate.
    injection E1 as _ _ E1. now apply existsb_close_In.
  - subst tr.
    destruct (phase_after_split Start ph a c (EFprintf v) E)
      as (ph1 & ph2 & E1 & E2 & _).
    apply order_history in E1.
    destruct ph1 as [[]|[]| | | | | | | |code]; try discriminate.
    injection E1 as _ E1 _. now apply existsb_open_In.
  - subst tr.
    destruct (phase_after_split Start ph a c (EFprintf v) E)
      as (ph1 & ph2 & E1 & E2 & _).
    apply order_history in E1.
    destruct ph1 as [[]|[]| | | | | | | |code]; try discriminate.
    injection E1 as _ _ E1. now apply existsb_close_In.
Qed.

(** *** The variables during the loop *)

Lemma loop_body_frame (f : FILE) (l l' : locals) (w w' : world) :
  loop_body f l w = (Done l', w') ->
  n l' = n l /\ min l' = min l /\ max l' = max l.
Proof.
  rewrite loop_body_eq. destruct (modulus l =? 0); [discriminate|].
  intros [= <- _]. now cbn.
Qed.

Lemma loop_reaches_frame (f : FILE) (l0 : locals) (w0 : world)
      (i : Z) (l : locals) (w : world) :
  loop_reaches f l0 w0 i l w ->
  n l = n l0 /\ min l = min l0 /\ max l = max l0.
Proof.
  induction 1 as [|i l w l' w' _ (IHn & IHmin & IHmax) _ Hbody]; [auto|].
  apply loop_body_frame in Hbody. destruct Hbody as (En & Emin & Emax).
  repeat split; congruence.
Qed.

(** The states of [loop_reaches] are those that [for_loop] goes through. *)
Lemma loop_reaches_for_loop (f : FILE) (l0 : locals) (w0 : world)
      (i : Z) (l : locals) (w : world) :
  loop_reaches f l0 w0 i l w ->
  exists k, forall fuel,
    for_loop (k + fuel) f 0 l0 w0 = for_loop fuel f i l w.
Proof.
  induction 1 as [|i l w l' w' _ [k IH] Hlt Hbody].
  - now exists O.
  - exists (S k). intros fuel.
    replace (S k + fuel)%nat with (k + S fuel)%nat by lia.
    rewrite IH. cbn [for_loop]. rewrite Hlt. unfold bind. now rewrite Hbody.
Qed.

(** No event after the reading of the parameters is a [scanf]. *)
Lemma run_kind_scans (fuel : nat) (w : world) (o : outcome Z) (tail : list event) :
  run_kind fuel w o tail -> scans tail = [].
Proof.
  intros [Hco|Hco Hc Hk|Hco Hc Hk|j Hco Hk]; cbn [app]; try reflexivity.
  - change (scans (?a :: ?b :: ?c :: ?t)) with (scans t).
    rewrite scans_app.
    destruct (loop_events_shown (parameters w)
                (draws (count_of w) (srand_state (seed_of w))))
      as (_ & _ & _ & ->).
    reflexivity.
  - change (scans (?a :: ?b :: ?c :: ?t)) with (scans t).
    destruct (loop_events_shown (parameters w)
                (draws j (srand_state (seed_of w))))
      as (_ & _ & _ & ->).
    reflexivity.
Qed.

(** What the events of a run show of its iterations: the values written
    are computed, each from its draw, with the variables as they were read;
    a last draw can be left without its value (the fault). *)
Lemma run_kind_values (fuel : nat) (w : world) (o : outcome Z) (tail : list event) :
  run_kind fuel w o tail ->
  exists rs extra,
    drawn tail = rs ++ extra /\
    written tail = map (gen_value (parameters w)) rs /\
    (o = Done 0 -> extra = [] /\ List.length rs = count_of w).
Proof.
  intros [Hco|Hco Hc Hk|Hco Hc Hk|j Hco Hk].
  - exists [], []. repeat split; try reflexivity. discriminate.
  - exists (draws (count_of w) (srand_state (seed_of w))), [].
    destruct (loop_events_shown (parameters w)
                (draws (count_of w) (srand_state (seed_of w))))
      as (Lw & Ld & _).
    cbn [app].
    change (drawn (?a :: ?b :: ?c :: ?t)) with (drawn t).
    change (written (?a :: ?b :: ?c :: ?t)) with (written t).
    rewrite drawn_app, written_app, Lw, Ld. cbn.
    rewrite !app_nil_r. repeat split. apply draws_length.
  - exists [], [fst (rand_step (srand_state (seed_of w)))].
    repeat split; try reflexivity; discriminate.
  - exists (draws j (srand_state (seed_of w))), [].
    destruct (loop_events_shown (parameters w)
                (draws j (srand_state (seed_of w))))
      as (Lw & Ld & _).
    cbn [app].
    change (drawn (?a :: ?b :: ?c :: ?t)) with (drawn t).
    change (written (?a :: ?b :: ?c :: ?t)) with (written t).
    rewrite Lw, Ld, app_nil_r. repeat split; discriminate.
Qed.

(** The loop leaves [n], [min] and [max] as it found them. *)
Lemma for_loop_frame (fuel : nat) (f : FILE) :
  forall (i : Z) (l l' : locals) (w w' : world),
    for_loop fuel f i l w = (Done l', w') ->
    n l' = n l /\ min l' = min l /\ max l' = max l.
Proof.
  induction fuel as [|fuel IH]; intros i l l' w w' E; [discriminate|].
  cbn [for_loop] in E. destruct (i <? n l).
  - unfold bind in E.
    destruct (loop_body f l w) as [[l1| |] w1] eqn:Hbody; try discriminate.
    apply loop_body_frame in Hbody. destruct Hbody as (En & Emin & Emax).
    apply IH in E. destruct E as (En' & Emin' & Emax').
    repeat split; congruence.
  - injection E as <- _. auto.
Qed.

(** A run is known by its outcome and its final world. *)
Lemma run_result {A} (x : outcome A * world) (o : outcome A) :
  fst x = o -> x = (o, snd x).
Proof. destruct x; cbn; now intros ->. Qed.

End Runs.

(** * The claims of the specification *)

(** C1. For every input with [count >= 0] and [min <= max], after a
    successful run (one that returns 0) the file holds exactly [count]
    lines, and every line is the decimal numeral of an integer [v] with
    [min <= v <= max]. *)
Theorem output_lines_in_range `{P : Prng} (fuel : nat) (w w' : world) :
  0 <= n (parameters w) ->
  min (parameters w) <= max (parameters w) ->
  main fuel w = (Done 0, w') ->
  exists text,
    w_file w' = Some text /\
    Z.of_nat (List.length (lines text)) = n (parameters w) /\
    Forall (fun line =>
              exists v, parse_d line = Some v /\
                        min (parameters w) <= v <= max (parameters w))
           (lines text).
Proof.
  intros Hn Hle E.
  apply main_done_0 in E. destruct E as (_ & Hc & _ & ->).
  exists (render (outputs w)). split; [apply completed_file|].
  rewrite lines_render. split.
  - rewrite length_map, outputs_length. unfold count_of. lia.
  - apply Forall_map. unfold outputs. apply Forall_map.
    destruct (parameters_in_int w) as (_ & Hlo & Hhi).
    destruct (Z.eq_dec (modulus (parameters w)) 0) as [Hz|Hnz].
    + destruct Hc as [Hc|Hc]; [|contradiction].
      unfold count_of. replace (Z.to_nat (n (parameters w))) with O by lia.
      constructor.
    + eapply Forall_impl; [|apply draws_range].
      intros r Hr. exists (gen_value (parameters w) r).
      split; [apply parse_print_d|].
      now apply gen_value_range.
Qed.

Lemma output_lines_in_range_witness :
  exists text,
    w_file (snd (main 10 dice_world)) = Some text /\
    Z.of_nat (List.length (lines text)) = 5 /\
    Forall (fun line => exists v, parse_d line = Some v /\ 1 <= v <= 6)
           (lines text).
Proof.
  apply (output_lines_in_range 10 dice_world (snd (main 10 dice_world))).
  - apply Z.leb_le. vm_compute. reflexivity.
  - apply Z.leb_le. vm_compute. reflexivity.
  - apply run_result. vm_compute. reflexivity.
Defined.

(** C2, as the code has it.  If the file cannot be opened, the program
    prints the error message, writes nothing and returns 1.  If it can be
    opened and no iteration divides by zero ([count <= 0], or
    [max - min + 1] is not zero in [int] arithmetic), the program runs to
    completion, prints the success message and returns 0.  A run that
    returns returns 0 or 1. *)
Theorem exit_codes `{P : Prng} (fuel : nat) (w : world) :
  (w_can_open w = false ->
   exists w',
     main fuel w = (Done 1, w') /\
     w_stdout w' =
       (w_stdout w ++ msg_count ++ msg_min ++ msg_max ++ msg_error)%string /\
     w_file w' = w_file w /\
     written (w_trace w') = written (w_trace w)) /\
  (w_can_open w = true ->
   n (parameters w) <= 0 \/ modulus (parameters w) <> 0 ->
   (Z.to_nat (n (parameters w)) < fuel)%nat ->
   exists w',
     main fuel w = (Done 0, w') /\
     w_stdout w' =
       (w_stdout w ++ msg_count ++ msg_min ++ msg_max ++ msg_done)%string) /\
  (forall code w', main fuel w = (Done code, w') -> code = 0 \/ code = 1).
Proof.
  repeat split.
  - intros Hco. exists (open_failed w). rewrite main_eq, Hco.
    repeat split.
    + apply open_failed_stdout.
    + apply open_failed_file.
    + destruct (open_failed_shown w) as (Hw & _). exact Hw.
  - intros Hco Hc Hfuel. exists (completed w).
    rewrite main_completes by assumption.
    apply Nat.ltb_lt in Hfuel. unfold count_of. rewrite Hfuel.
    split; [reflexivity|apply completed_stdout].
  - intros code w' E. apply main_done in E.
    destruct E as [(_ & -> & _)|(_ & -> & _)]; auto.
Qed.

Lemma exit_codes_witness :
  (exists w', main 10 read_only_world = (Done 1, w') /\
              w_file w' = None /\ written (w_trace w') = []) /\
  (exists w', main 10 dice_world = (Done 0, w')).
Proof.
  split.
  - destruct (exit_codes 10 read_only_world) as (H & _ & _).
    destruct (H eq_refl) as (w' & E & _ & Ef & Ew).
    exists w'. repeat split; assumption.
  - destruct (exit_codes 10 dice_world) as (_ & H & _).
    destruct H as (w' & E & _).
    + reflexivity.
    + right. vm_compute. discriminate.
    + vm_compute. lia.
    + exists w'. exact E.
Defined.

(** C2 as it is stated fails where an iteration divides by zero: with the
    input 2, 0, -1 the file is opened and no run returns 0. *)
Lemma exit_code_0_counterexample :
  w_can_open zero_divisor_world = true /\
  fst (main 10 zero_divisor_world) = Trap /\
  ~ (exists fuel w', main fuel zero_divisor_world = (Done 0, w')).
Proof.
  split; [reflexivity|]. split; [vm_compute; reflexivity|].
  intros (fuel & w' & E). apply main_done_0 in E.
  destruct E as (_ & Hc & _).
  assert (Hn : n (parameters zero_divisor_world) = 2) by (vm_compute; reflexivity).
  assert (Hm : modulus (parameters zero_divisor_world) = 0)
    by (vm_compute; reflexivity).
  unfold completes in Hc. rewrite Hn, Hm in Hc. lia.
Qed.

(** C3. In a successful run the generator is seeded exactly once, with
    the seed made from the clock ([time(0)] converted to [unsigned]); then
    each of the [count] iterations draws a non-negative [r] with [rand()]
    and writes, in decimal and followed by a newline, the value
    [min + r % (max - min + 1)] computed in [int] arithmetic.  Where
    [min <= max] and [max - min + 1] is an [int], that value is
    [min + (r mod (max - min + 1))]. *)
Theorem generation_algorithm `{P : Prng} (fuel : nat) (w w' : world) :
  main fuel w = (Done 0, w') ->
  let p := parameters w in
  let rs := draws (Z.to_nat (n p)) (srand_state (to_unsigned (w_now w))) in
  seeds (w_trace w') = seeds (w_trace w) ++ [to_unsigned (w_now w)] /\
  w_trace w' =
    w_trace w ++ read_events w
    ++ [EFopen true; ETime (w_now w); ESrand (to_unsigned (w_now w))]
    ++ flat_map (fun r => [ERand r; EFprintf (gen_value p r)]) rs
    ++ [EFclose; EPrintf msg_done] /\
  w_file w' = Some (render (map (gen_value p) rs)) /\
  Forall (fun r => 0 <= r) rs /\
  (forall r,
     gen_value p r =
     int_add (min p) (Z.rem r (int_add (int_sub (max p) (min p)) 1))) /\
  (min p <= max p -> max p - min p < INT_MAX ->
   forall r, In r rs -> gen_value p r = min p + r mod (max p - min p + 1)).
Proof.
  intros E p rs. apply main_done_0 in E. destruct E as (_ & _ & _ & ->).
  destruct (completed_shown w) as (_ & _ & Hseeds & _).
  split; [exact Hseeds|].
  pose proof (completed_trace w) as Htrace.
  pose proof (completed_file w) as Hfile.
  unfold outputs, loop_events, count_of, seed_of in Htrace, Hfile.
  split; [exact Htrace|].
  split; [exact Hfile|].
  split.
  { eapply Forall_impl; [|apply draws_range]. cbn. intros; lia. }
  split; [reflexivity|].
  intros Hle Hw r Hr.
  destruct (parameters_in_int w) as (_ & Hlo & Hhi).
  pose proof (draws_range (Z.to_nat (n p)) (srand_state (to_unsigned (w_now w))))
    as Hrs.
  rewrite Forall_forall in Hrs. specialize (Hrs r Hr).
  apply gen_value_spec; try assumption. lia.
Qed.

Lemma generation_algorithm_witness :
  seeds (w_trace (snd (main 10 dice_world))) = [1000] /\
  w_file (snd (main 10 dice_world))
  = Some (render (map (fun r => 1 + r mod 6) [28322; 7943; 4653; 8133; 31660])).
Proof.
  destruct (generation_algorithm 10 dice_world (snd (main 10 dice_world)))
    as (Hs & _ & Hf & _).
  - apply run_result. vm_compute. reflexivity.
  - split; [exact Hs|]. rewrite Hf. vm_compute. reflexivity.
Defined.

(** C4. For [count = 0], when the file can be opened: it exists after the
    run and holds no line, the success message is printed and the program
    returns 0. *)
Theorem zero_count `{P : Prng} (fuel : nat) (w : world) :
  n (parameters w) = 0 ->
  w_can_open w = true ->
  (0 < fuel)%nat ->
  exists w' text,
    main fuel w = (Done 0, w') /\
    w_file w' = Some text /\ text = EmptyString /\ lines text = [] /\
    written (w_trace w') = written (w_trace w) /\
    w_stdout w' =
      (w_stdout w ++ msg_count ++ msg_min ++ msg_max ++ msg_done)%string.
Proof.
  intros Hn Hco Hfuel.
  assert (Hk : count_of w = O) by (unfold count_of; rewrite Hn; reflexivity).
  exists (completed w), EmptyString.
  rewrite main_completes; [|assumption|left; lia].
  rewrite Hk. apply Nat.ltb_lt in Hfuel. rewrite Hfuel.
  split; [reflexivity|].
  split; [rewrite completed_file; unfold outputs; now rewrite Hk|].
  split; [reflexivity|]. split; [reflexivity|].
  split; [|apply completed_stdout].
  destruct (completed_shown w) as (Hw & _). rewrite Hw.
  unfold outputs. rewrite Hk. apply app_nil_r.
Qed.

Lemma zero_count_witness :
  exists w' text,
    main 1 no_numbers_world = (Done 0, w') /\
    w_file w' = Some text /\ text = EmptyString /\ lines text = [] /\
    written (w_trace w') = [] /\
    w_stdout w' = (msg_count ++ msg_min ++ msg_max ++ msg_done)%string.
Proof.
  apply (zero_count 1 no_numbers_world).
  - vm_compute. reflexivity.
  - reflexivity.
  - lia.
Defined.

(** C5. For [min = max], every value that a run writes is [min].  The
    run returns (the divisor is 1, no iteration faults); each value it gave
    to [fprintf] is [min]; and when the file could be opened, it holds
    [count] lines (none for a negative [count]), each the numeral of
    [min]. *)
Theorem equal_bounds `{P : Prng} (fuel : nat) (w : world) :
  min (parameters w) = max (parameters w) ->
  (Z.to_nat (n (parameters w)) < fuel)%nat ->
  exists code w' vs,
    main fuel w = (Done code, w') /\
    written (w_trace w') = written (w_trace w) ++ vs /\
    Forall (fun v => v = min (parameters w)) vs /\
    (w_can_open w = true ->
     code = 0 /\
     exists text,
       w_file w' = Some text /\
       List.length (lines text) = Z.to_nat (n (parameters w)) /\
       Forall (fun line => parse_d line = Some (min (parameters w)))
              (lines text)).
Proof.
  intros Heq Hfuel. fold (count_of w) in Hfuel.
  destruct (parameters_in_int w) as (_ & Hlo & _).
  assert (Hall : Forall (fun v => v = min (parameters w)) (outputs w)).
  { unfold outputs. apply Forall_map. apply Forall_forall.
    intros r _. now apply gen_value_equal_bounds. }
  destruct (w_can_open w) eqn:Hco.
  - exists 0, (completed w), (outputs w).
    rewrite main_completes; [|assumption|].
    2:{ right. rewrite modulus_equal_bounds by assumption. discriminate. }
    apply Nat.ltb_lt in Hfuel. rewrite Hfuel.
    destruct (completed_shown w) as (Hw & _).
    split; [reflexivity|]. split; [exact Hw|]. split; [exact Hall|].
    intros _. split; [reflexivity|].
    exists (render (outputs w)). split; [apply completed_file|].
    rewrite lines_render. split.
    + now rewrite length_map, outputs_length.
    + apply Forall_map. eapply Forall_impl; [|exact Hall].
      cbn. intros v ->. apply parse_print_d.
  - exists 1, (open_failed w), [].
    rewrite main_eq, Hco.
    destruct (open_failed_shown w) as (Hw & _).
    split; [reflexivity|]. split; [now rewrite app_nil_r|].
    split; [constructor|discriminate].
Qed.

Lemma equal_bounds_witness :
  exists code w' vs,
    main 10 constant_world = (Done code, w') /\
    written (w_trace w') = [] ++ vs /\
    Forall (fun v => v = 7) vs /\
    (true = true ->
     code = 0 /\
     exists text,
       w_file w' = Some text /\
       List.length (lines text) = 4%nat /\
       Forall (fun line => parse_d line = Some 7) (lines text)).
Proof.
  apply (equal_bounds 10 constant_world).
  - vm_compute. reflexivity.
  - vm_compute. lia.
Defined.

(** C6. For a negative [count] the loop body is never run: a run calls
    neither [rand] nor [fprintf], so that it writes no line; and when the
    file can be opened the run leaves it empty, prints the success message
    and returns 0. *)
Theorem negative_count `{P : Prng} (fuel : nat) (w : world) :
  n (parameters w) < 0 ->
  (0 < fuel)%nat ->
  (forall code w',
     main fuel w = (Done code, w') ->
     written (w_trace w') = written (w_trace w) /\
     drawn (w_trace w') = drawn (w_trace w)) /\
  (w_can_open w = true ->
   exists w',
     main fuel w = (Done 0, w') /\
     w_file w' = Some EmptyString /\
     lines EmptyString = [] /\
     w_stdout w' =
       (w_stdout w ++ msg_count ++ msg_min ++ msg_max ++ msg_done)%string).
Proof.
  intros Hn Hfuel.
  assert (Hk : count_of w = O) by (unfold count_of; lia).
  split.
  - intros code w' E. apply main_done in E.
    destruct E as [(_ & _ & ->)|(_ & _ & _ & _ & ->)].
    + destruct (open_failed_shown w) as (Hw & Hd & _). now split.
    + destruct (completed_shown w) as (Hw & Hd & _). rewrite Hw, Hd.
      unfold outputs. rewrite Hk. cbn. now rewrite !app_nil_r.
  - intros Hco. exists (completed w).
    rewrite main_completes; [|assumption|left; lia].
    rewrite Hk. apply Nat.ltb_lt in Hfuel. rewrite Hfuel.
    split; [reflexivity|].
    split; [rewrite completed_file; unfold outputs; now rewrite Hk|].
    split; [reflexivity|apply completed_stdout].
Qed.

Lemma negative_count_witness :
  exists w',
    main 1 negative_count_world = (Done 0, w') /\
    w_file w' = Some EmptyString /\
    lines EmptyString = [] /\
    w_stdout w' = (msg_count ++ msg_min ++ msg_max ++ msg_done)%string.
Proof.
  destruct (negative_count 1 negative_count_world) as (_ & H).
  - apply Z.ltb_lt. vm_compute. reflexivity.
  - lia.
  - apply H. reflexivity.
Defined.

(** C7, as the code has it.  In every run from the start of the program
    the library calls follow the order of the specification: the three
    parameters are read before the file is opened, no [rand] and no
    [fprintf] comes before the file was opened or after it was closed.  If
    the file cannot be opened the run ends in Exit(1) without generating;
    if it can, and no iteration divides by zero, the loop runs, the file
    is closed, success is reported and the run ends in Exit(0). *)
Theorem execution_order `{P : Prng} (fuel : nat) (w w' : world) (o : outcome Z) :
  w_trace w = [] ->
  main fuel w = (o, w') ->
  (exists ph,
     phase_after Start (w_trace w') = Some ph /\
     (w_can_open w = false ->
      o = Done 1 /\ ph = Exit 1 /\ drawn (w_trace w') = []) /\
     (w_can_open w = true ->
      n (parameters w) <= 0 \/ modulus (parameters w) <> 0 ->
      (Z.to_nat (n (parameters w)) < fuel)%nat ->
      o = Done 0 /\ ph = Exit 0)) /\
  (forall a b c, w_trace w' = a ++ EFopen b :: c ->
     List.length (scans a) = 3%nat /\ scans c = []) /\
  (forall a r c, w_trace w' = a ++ ERand r :: c ->
     In (EFopen true) a /\ ~ In EFclose a) /\
  (forall a v c, w_trace w' = a ++ EFprintf v :: c ->
     In (EFopen true) a /\ ~ In EFclose a).
Proof.
  intros Hw0 E.
  destruct (main_cases fuel w) as (tail & Hk & Htr).
  rewrite E in Hk, Htr. cbn [fst snd] in Hk, Htr. rewrite Hw0 in Htr.
  cbn [app] in Htr.
  destruct (run_kind_phase fuel w o tail Hk) as (ph & Hph & Ho).
  assert (Hall : phase_after Start (w_trace w') = Some ph).
  { rewrite Htr, phase_after_app, phase_after_read. exact Hph. }
  split; [|now apply (order_facts (w_trace w') ph)].
  exists ph. split; [exact Hall|]. split.
  - intros Hco. destruct Hk; try congruence. subst ph.
    repeat split. rewrite Htr, drawn_app.
    destruct (read_events_shown w) as (_ & -> & _). reflexivity.
  - intros Hco Hc Hfuel. fold (count_of w) in Hfuel.
    destruct Hk; try congruence; try contradiction; try lia.
    now subst ph.
Qed.

Lemma execution_order_witness :
  phase_after Start (w_trace (snd (main 10 dice_world))) = Some (Exit 0) /\
  phase_after Start (w_trace (snd (main 10 read_only_world))) = Some (Exit 1).
Proof.
  split.
  - destruct (execution_order 10 dice_world (snd (main 10 dice_world)) (Done 0))
      as ((ph & Hph & _ & H) & _).
    + reflexivity.
    + apply run_result. vm_compute. reflexivity.
    + destruct H as (_ & ->); [reflexivity| |vm_compute; lia|exact Hph].
      right. vm_compute. discriminate.
  - destruct (execution_order 10 read_only_world
                (snd (main 10 read_only_world)) (Done 1))
      as ((ph & Hph & H & _) & _).
    + reflexivity.
    + apply run_result. vm_compute. reflexivity.
    + destruct H as (_ & -> & _); [reflexivity|exact Hph].
Defined.

(** C7 as it is stated fails where an iteration divides by zero: with the
    input 2, 0, -1 the file is opened, the run stops in the first
    iteration, and in no run is the file closed. *)
Lemma close_after_loop_counterexample :
  w_can_open zero_divisor_world = true /\
  fst (main 10 zero_divisor_world) = Trap /\
  phase_after Start (w_trace (snd (main 10 zero_divisor_world)))
  = Some WriteValue /\
  ~ (exists fuel, In EFclose (w_trace (snd (main fuel zero_divisor_world)))).
Proof.
  split; [reflexivity|]. split; [vm_compute; reflexivity|].
  split; [vm_compute; reflexivity|].
  intros (fuel & Hin).
  assert (Hc : ~ completes zero_divisor_world).
  { assert (Hn : n (parameters zero_divisor_world) = 2)
      by (vm_compute; reflexivity).
    assert (Hm : modulus (parameters zero_divisor_world) = 0)
      by (vm_compute; reflexivity).
    unfold completes. rewrite Hn, Hm. lia. }
  rewrite (main_traps fuel zero_divisor_world eq_refl Hc) in Hin.
  destruct fuel as [|fuel]; cbn [snd] in Hin.
  - rewrite seeded_trace, read_events_eq in Hin. cbn in Hin.
    repeat (destruct Hin as [Hin|Hin]; [discriminate|]). exact Hin.
  - rewrite trapped_trace, read_events_eq in Hin. cbn in Hin.
    repeat (destruct Hin as [Hin|Hin]; [discriminate|]). exact Hin.
Qed.

(** C8. The three parameters are read once each, by the three [scanf] at
    the start of the run and by no later one; a variable then holds what
    its [scanf] converted (or what it held, if nothing was converted).
    They are not modified afterward.  The loop of [main] is [for_loop]
    from [i = 0] with these variables; in every state in which that loop
    tests [i < n] (the states [loop_reaches], which are states [for_loop]
    goes through), and when it ends, [n], [min] and [max] hold the values
    read; and every value the run writes is computed from its draw with
    the [min] and [max] read, [count] of them when the run returns 0. *)
Theorem parameters_read_once_and_kept `{P : Prng}
        (fuel : nat) (w w' : world) (o : outcome Z) :
  main fuel w = (o, w') ->
  scans (w_trace w') =
    scans (w_trace w) ++
    [EScanf Vn (scanned Vn w); EScanf Vmin (scanned Vmin w);
     EScanf Vmax (scanned Vmax w)] /\
  (forall x,
     load x (parameters w) =
     match scanned x w with
     | Some v => v
     | None => wrap (load x (w_junk w))
     end) /\
  (w_can_open w = true ->
   (o, w') =
   match for_loop fuel RandomsTxt 0 (parameters w) (seeded w) with
   | (Done _, w2) => (Done 0, finish w2)
   | (Trap, w2) => (Trap, w2)
   | (OutOfFuel, w2) => (OutOfFuel, w2)
   end) /\
  (forall i l w2,
     loop_reaches RandomsTxt (parameters w) (seeded w) i l w2 ->
     (exists k, forall fuel',
        for_loop (k + fuel') RandomsTxt 0 (parameters w) (seeded w)
        = for_loop fuel' RandomsTxt i l w2) /\
     n l = n (parameters w) /\ min l = min (parameters w) /\
     max l = max (parameters w)) /\
  (forall l' w2,
     for_loop fuel RandomsTxt 0 (parameters w) (seeded w) = (Done l', w2) ->
     n l' = n (parameters w) /\ min l' = min (parameters w) /\
     max l' = max (parameters w)) /\
  (exists rs extra,
     drawn (w_trace w') = drawn (w_trace w) ++ rs ++ extra /\
     written (w_trace w')
     = written (w_trace w) ++ map (gen_value (parameters w)) rs /\
     (o = Done 0 ->
      extra = [] /\ List.length rs = Z.to_nat (n (parameters w)))).
Proof.
  intros E.
  destruct (main_cases fuel w) as (tail & Hk & Htr).
  rewrite E in Hk, Htr. cbn [fst snd] in Hk, Htr.
  destruct (read_events_shown w) as (Rw & Rd & _ & Rs).
  split; [|split; [|split; [|split; [|split]]]].
  - rewrite Htr, !scans_app, Rs, (run_kind_scans fuel w o tail Hk).
    now rewrite app_nil_r.
  - intros x. apply parameters_scanned.
  - intros Hco. rewrite <- E, main_eq, Hco. reflexivity.
  - intros i l w2 H. split.
    + now apply loop_reaches_for_loop.
    + now apply loop_reaches_frame in H.
  - intros l' w2 H. now apply for_loop_frame in H.
  - destruct (run_kind_values fuel w o tail Hk) as (rs & extra & Hd & Hw & Hdone).
    exists rs, extra.
    rewrite Htr, !drawn_app, !written_app, Rw, Rd, Hd, Hw.
    cbn [app]. repeat split; apply Hdone; assumption.
Qed.

Lemma parameters_read_once_and_kept_witness :
  scans (w_trace (snd (main 10 dice_world))) =
    [EScanf Vn (Some 5); EScanf Vmin (Some 1); EScanf Vmax (Some 6)] /\
  (exists rs,
     drawn (w_trace (snd (main 10 dice_world))) = rs /\
     written (w_trace (snd (main 10 dice_world)))
     = map (gen_value (parameters dice_world)) rs /\
     List.length rs = 5%nat) /\
  (forall l' w2,
     for_loop 10 RandomsTxt 0 (parameters dice_world) (seeded dice_world)
     = (Done l', w2) ->
     n l' = n (parameters dice_world) /\ min l' = min (parameters dice_world) /\
     max l' = max (parameters dice_world)).
Proof.
  destruct (parameters_read_once_and_kept 10 dice_world
              (snd (main 10 dice_world)) (Done 0))
    as (Hs & _ & _ & _ & Hfinal & rs & extra & Hd & Hw & Hdone).
  - apply run_result. vm_compute. reflexivity.
  - destruct (Hdone eq_refl) as (-> & Hlen).
    split; [|split; [|exact Hfinal]].
    + rewrite Hs. vm_compute. reflexivity.
    + exists rs. rewrite app_nil_r in Hd.
      split; [exact Hd|]. split; [exact Hw|].
      rewrite Hlen. vm_compute. reflexivity.
Defined.

(** C9, as the code has it.  With fuel for more than [max(count, 0)]
    iterations every run ends, whatever the input: no input makes the
    program run forever.  When the file can be opened and no iteration
    divides by zero, the loop makes exactly [max(count, 0)] iterations and
    the program returns. *)
Theorem loop_iterations `{P : Prng} (fuel : nat) (w : world) :
  (Z.to_nat (n (parameters w)) < fuel)%nat ->
  fst (main fuel w) <> OutOfFuel /\
  (w_can_open w = true ->
   n (parameters w) <= 0 \/ modulus (parameters w) <> 0 ->
   exists w',
     main fuel w = (Done 0, w') /\
     Z.of_nat (iterations_begun (w_trace w'))
     = Z.of_nat (iterations_begun (w_trace w)) + Z.max (n (parameters w)) 0 /\
     Z.of_nat (iterations_done (w_trace w'))
     = Z.of_nat (iterations_done (w_trace w)) + Z.max (n (parameters w)) 0).
Proof.
  intros Hfuel. fold (count_of w) in Hfuel. split.
  - destruct (main_cases fuel w) as (tail & Hk & _).
    destruct Hk; try discriminate. lia.
  - intros Hco Hc. exists (completed w).
    rewrite main_completes by assumption.
    apply Nat.ltb_lt in Hfuel. rewrite Hfuel. split; [reflexivity|].
    destruct (completed_shown w) as (Hw & Hd & _).
    unfold iterations_begun, iterations_done.
    rewrite Hw, Hd, !length_app, outputs_length, draws_length.
    unfold count_of. lia.
Qed.

Lemma loop_iterations_witness :
  fst (main 10 dice_world) <> OutOfFuel /\
  exists w',
    main 10 dice_world = (Done 0, w') /\
    Z.of_nat (iterations_begun (w_trace w')) = 0 + Z.max 5 0 /\
    Z.of_nat (iterations_done (w_trace w')) = 0 + Z.max 5 0.
Proof.
  destruct (loop_iterations 10 dice_world) as (Hend & H).
  - vm_compute. lia.
  - split; [exact Hend|]. apply H.
    + reflexivity.
    + right. vm_compute. discriminate.
Defined.

(** C9 as it is stated fails where an iteration divides by zero: with the
    input 2, 0, -1, whose [max(count, 0)] is 2, the run stops in the first
    iteration, and no run begins or completes two iterations. *)
Lemma loop_iterations_counterexample :
  n (parameters zero_divisor_world) = 2 /\
  fst (main 10 zero_divisor_world) = Trap /\
  iterations_begun (w_trace (snd (main 10 zero_divisor_world))) = 1%nat /\
  iterations_done (w_trace (snd (main 10 zero_divisor_world))) = 0%nat /\
  ~ (exists fuel,
       iterations_begun (w_trace (snd (main fuel zero_divisor_world))) = 2%nat \/
       iterations_done (w_trace (snd (main fuel zero_divisor_world))) = 2%nat).
Proof.
  split; [vm_compute; reflexivity|]. split; [vm_compute; reflexivity|].
  split; [vm_compute; reflexivity|]. split; [vm_compute; reflexivity|].
  intros (fuel & H).
  assert (Hc : ~ completes zero_divisor_world).
  { assert (Hn : n (parameters zero_divisor_world) = 2)
      by (vm_compute; reflexivity).
    assert (Hm : modulus (parameters zero_divisor_world) = 0)
      by (vm_compute; reflexivity).
    unfold completes. rewrite Hn, Hm. lia. }
  rewrite (main_traps fuel zero_divisor_world eq_refl Hc) in H.
  unfold iterations_begun, iterations_done in H.
  destruct fuel as [|fuel]; cbn [snd] in H.
  - rewrite seeded_trace, read_events_eq in H. cbn in H.
    destruct H; discriminate.
  - rewrite trapped_trace, read_events_eq in H. cbn in H.
    destruct H; discriminate.
Qed.

(** C10. The file that a run writes is a function of the seed and of the
    three parameters: two runs that end, with the same seed and the same
    [count], [min] and [max], both opening the file, end alike and leave
    the same file, whatever else differs around them. *)
Theorem output_deterministic `{P : Prng} (fuel1 fuel2 : nat) (w1 w2 : world) :
  to_unsigned (w_now w1) = to_unsigned (w_now w2) ->
  n (parameters w1) = n (parameters w2) ->
  min (parameters w1) = min (parameters w2) ->
  max (parameters w1) = max (parameters w2) ->
  w_can_open w1 = true -> w_can_open w2 = true ->
  fst (main fuel1 w1) <> OutOfFuel ->
  fst (main fuel2 w2) <> OutOfFuel ->
  fst (main fuel1 w1) = fst (main fuel2 w2) /\
  w_file (snd (main fuel1 w1)) = w_file (snd (main fuel2 w2)).
Proof.
  intros Hseed Hn Hmin Hmax Hco1 Hco2 H1 H2.
  assert (Hmod : modulus (parameters w1) = modulus (parameters w2)).
  { unfold modulus. now rewrite Hmin, Hmax. }
  assert (Hout : outputs w1 = outputs w2).
  { unfold outputs, count_of, seed_of. rewrite Hn, Hseed.
    apply map_ext. intros r. now apply gen_value_ext. }
  destruct (completes_dec w1) as [Hc1|Hc1].
  - assert (Hc2 : completes w2).
    { unfold completes in *. now rewrite <- Hn, <- Hmod. }
    rewrite main_completes in H1 |- * by assumption.
    rewrite (main_completes fuel2 w2) in H2 |- * by assumption.
    destruct (count_of w1 <? fuel1)%nat; [|now elim H1].
    destruct (count_of w2 <? fuel2)%nat; [|now elim H2].
    cbn [fst snd]. rewrite !completed_file, Hout. now split.
  - assert (Hc2 : ~ completes w2).
    { unfold completes in *. now rewrite <- Hn, <- Hmod. }
    rewrite main_traps in H1 |- * by assumption.
    rewrite (main_traps fuel2 w2) in H2 |- * by assumption.
    destruct fuel1; [now elim H1|]. destruct fuel2; [now elim H2|].
    now split.
Qed.

Lemma output_deterministic_witness :
  fst (main 10 dice_world) = fst (main 8 other_dice_world) /\
  w_file (snd (main 10 dice_world)) = w_file (snd (main 8 other_dice_world)).
Proof.
  apply (output_deterministic 10 8 dice_world other_dice_world).
  - vm_compute. reflexivity.
  - vm_compute. reflexivity.
  - vm_compute. reflexivity.
  - vm_compute. reflexivity.
  - reflexivity.
  - reflexivity.
  - vm_compute. discriminate.
  - vm_compute. discriminate.
Defined.

(** * Further properties of [main] *)

Section MoreRuns.

Context {P : Prng}.

Ltac read_input w :=
  destruct w as [? ? ? ? ? ? ? ?];
  cbv [parameters after_read read_parameters bind ret declare_locals printf
       scanf_d log set_stdin set_stdout set_file store
       w_stdin w_stdout w_can_open w_file w_now w_rng w_junk w_trace
       n min max num fst snd];
  repeat match goal with
         | |- context [scan_d ?s] =>
             let r := fresh "r" in
             let rest := fresh "rest" in
             destruct (scan_d s) as [[r|] rest];
             cbv beta iota delta [fst snd]
         end.

(** The divisor is zero for the empty range [max = min - 1], and for the
    whole of [int], whose width 2^32 wraps around to 0. *)
Lemma modulus_zero_iff (l : locals) :
  in_int (min l) -> in_int (max l) ->
  (modulus l = 0 <->
   max l = min l - 1 \/ (min l = INT_MIN /\ max l = INT_MAX)).
Proof.
  intros Hlo Hhi. unfold modulus, int_add, int_sub.
  destruct (wrap_spec (max l - min l)) as [R1 [q1 E1]].
  set (d := wrap (max l - min l)) in *.
  destruct (wrap_spec (d + 1)) as [R2 [q2 E2]].
  set (m := wrap (d + 1)) in *.
  unfold in_int, INT_MIN, INT_MAX, UINT_MODULUS in *. lia.
Qed.

Lemma after_read_set_file (old : option string) (w : world) :
  after_read (set_file old w) = set_file old (after_read w) /\
  parameters (set_file old w) = parameters w.
Proof. read_input w; split; reflexivity. Qed.

(** *** Input without a number *)

Lemma skip_space_idem (s : string) : skip_space (skip_space s) = skip_space s.
Proof.
  induction s as [|c s IH]; [reflexivity|].
  cbn [skip_space]. destruct (is_space c) eqn:E; [exact IH|].
  cbn [skip_space]. now rewrite E.
Qed.

Lemma scan_d_without_number (s : string) :
  starts_without_number s -> scan_d s = (None, skip_space s).
Proof.
  unfold scan_d, scan_signed. intros [->|(c & rest & -> & Hd & Hm & Hp)].
  - reflexivity.
  - rewrite Hm, Hp. cbn [scan_digits]. rewrite Hd. reflexivity.
Qed.

Lemma starts_without_number_skip (s : string) :
  starts_without_number s -> starts_without_number (skip_space s).
Proof. unfold starts_without_number. now rewrite skip_space_idem. Qed.

Lemma scanned_without_number (x : var) (w : world) :
  starts_without_number (w_stdin w) -> scanned x w = None.
Proof.
  intros H. unfold scanned.
  pose proof (starts_without_number_skip _ H) as H1.
  pose proof (starts_without_number_skip _ H1) as H2.
  destruct x; rewrite !(scan_d_without_number _ H); cbn [fst snd];
    rewrite ?(scan_d_without_number _ H1); cbn [fst snd];
    rewrite ?(scan_d_without_number _ H2); reflexivity.
Qed.

(** Two runs on the same fuel agree on the outcome and on the file when
    they agree on the seed, on the three variables, and on the file and its
    access before the run. *)
Lemma run_determined (fuel : nat) (w1 w2 : world) :
  seed_of w1 = seed_of w2 ->
  n (parameters w1) = n (parameters w2) ->
  min (parameters w1) = min (parameters w2) ->
  max (parameters w1) = max (parameters w2) ->
  w_can_open w1 = w_can_open w2 ->
  w_file w1 = w_file w2 ->
  fst (main fuel w1) = fst (main fuel w2) /\
  w_file (snd (main fuel w1)) = w_file (snd (main fuel w2)).
Proof.
  intros Hseed Hn Hmin Hmax Hco Hfile.
  assert (Hmod : modulus (parameters w1) = modulus (parameters w2)).
  { unfold modulus. now rewrite Hmin, Hmax. }
  assert (Hk : count_of w1 = count_of w2) by (unfold count_of; now rewrite Hn).
  assert (Hval : forall j,
             map (gen_value (parameters w1)) (draws j (srand_state (seed_of w1)))
             = map (gen_value (parameters w2)) (draws j (srand_state (seed_of w2)))).
  { intros j. rewrite Hseed. apply map_ext. intros r. now apply gen_value_ext. }
  destruct (w_can_open w1) eqn:Hco1; symmetry in Hco.
  - destruct (completes_dec w1) as [Hc1|Hc1].
    + assert (Hc2 : completes w2).
      { unfold completes in *. now rewrite <- Hn, <- Hmod. }
      rewrite (main_completes fuel w1), (main_completes fuel w2) by assumption.
      rewrite Hk. destruct (count_of w2 <? fuel)%nat; cbn [fst snd].
      * rewrite !completed_file. unfold outputs. now rewrite Hk, Hval.
      * split; [reflexivity|].
        change (Some (render (map (gen_value (parameters w1))
                                  (draws fuel (srand_state (seed_of w1)))))
                = Some (render (map (gen_value (parameters w2))
                                    (draws fuel (srand_state (seed_of w2)))))).
        now rewrite Hval.
    + assert (Hc2 : ~ completes w2).
      { unfold completes in *. now rewrite <- Hn, <- Hmod. }
      rewrite (main_traps fuel w1), (main_traps fuel w2) by assumption.
      destruct fuel; now split.
  - rewrite (main_eq fuel w1), (main_eq fuel w2), Hco1, Hco. cbn [fst snd].
    split; [reflexivity|]. now rewrite !open_failed_file.
Qed.

End MoreRuns.

Section MoreValues.

Context {P : Prng}.

(** With a reversed range, [max < min - 1], the divisor is negative and the
    remainder keeps the sign of [r]: the value is not below [min]. *)
Lemma gen_value_reversed (l : locals) (r : Z) :
  in_int (min l) -> in_int (max l) ->
  max l < min l - 1 -> min l - max l - 1 <= INT_MAX ->
  2 * min l - max l - 2 <= INT_MAX -> 0 <= r ->
  min l <= gen_value l r <= 2 * min l - max l - 2.
Proof.
  unfold gen_value, modulus, int_add, int_sub.
  intros Hlo Hhi Hrev Hw Htop Hr.
  destruct (wrap_spec (max l - min l)) as [R1 [q1 E1]].
  set (d := wrap (max l - min l)) in *.
  destruct (wrap_spec (d + 1)) as [R2 [q2 E2]].
  set (m := wrap (d + 1)) in *.
  assert (Hm : m <> 0) by (unfold in_int, INT_MIN, INT_MAX, UINT_MODULUS in *; lia).
  destruct (rem_nonneg_bounds r m Hr Hm) as [B1 B2].
  destruct (wrap_spec (min l + Z.rem r m)) as [R3 [q3 E3]].
  set (v := wrap (min l + Z.rem r m)) in *.
  unfold in_int, INT_MIN, INT_MAX, UINT_MODULUS in *. lia.
Qed.

Lemma modulus_reversed (l : locals) :
  in_int (min l) -> in_int (max l) ->
  max l < min l - 1 -> modulus l <> 0.
Proof.
  intros Hlo Hhi Hrev Hz. apply modulus_zero_iff in Hz; try assumption.
  unfold in_int, INT_MIN, INT_MAX in *. lia.
Qed.

(** Where [max - min + 1] does not wrap around, the value is at most
    [min + r]. *)
Lemma gen_value_le_draw (l : locals) (r : Z) :
  in_int (min l) -> in_int (max l) -> min l <= max l ->
  max l - min l < INT_MAX -> 0 <= r ->
  min l <= gen_value l r <= min l + r.
Proof.
  intros Hlo Hhi Hle Hw Hr. rewrite gen_value_spec by assumption.
  pose proof (Z.mod_pos_bound r (max l - min l + 1) ltac:(lia)).
  pose proof (Z.mod_le r (max l - min l + 1) Hr ltac:(lia)). lia.
Qed.

Lemma draws_le (B : Z) (k : nat) (s : rng) :
  (forall s', fst (rand_step s') <= B) ->
  Forall (fun r => 0 <= r <= B) (draws k s).
Proof.
  intros HB. revert s. induction k as [|k IH]; intros s; cbn; constructor.
  - split; [apply rand_range|apply HB].
  - apply IH.
Qed.

End MoreValues.

Lemma sample_rand_max (s : Z) : fst (sample_rand_step s) <= 32767.
Proof.
  unfold sample_rand_step; cbn [fst].
  pose proof (Z.mod_pos_bound
    (((s * 1103515245 + 12345) mod UINT_MODULUS) / 65536) 32768 ltac:(lia)).
  lia.
Qed.

(** X1. A run faults exactly when the file could be opened, [count] is
    positive, and the range is empty by one ([max = min - 1]) or is the
    whole of [int]; the fault comes after the file was opened: it leaves
    the file empty, no value written, and no message after the three
    prompts. *)
Theorem faults_exactly_when `{P : Prng} (fuel : nat) (w : world) :
  (Z.to_nat (n (parameters w)) < fuel)%nat ->
  (fst (main fuel w) = Trap <->
   w_can_open w = true /\ 0 < n (parameters w) /\
   (max (parameters w) = min (parameters w) - 1 \/
    (min (parameters w) = INT_MIN /\ max (parameters w) = INT_MAX))) /\
  (fst (main fuel w) = Trap ->
   w_file (snd (main fuel w)) = Some EmptyString /\
   w_stdout (snd (main fuel w))
   = (w_stdout w ++ msg_count ++ msg_min ++ msg_max)%string /\
   written (w_trace (snd (main fuel w))) = written (w_trace w)).
Proof.
  intros Hfuel. fold (count_of w) in Hfuel.
  destruct (parameters_in_int w) as (_ & Hlo & Hhi).
  pose proof (modulus_zero_iff (parameters w) Hlo Hhi) as Hz.
  destruct (w_can_open w) eqn:Hco.
  - destruct (completes_dec w) as [Hc|Hc].
    + rewrite main_completes by assumption.
      apply Nat.ltb_lt in Hfuel. rewrite Hfuel. cbn [fst snd].
      split; [|discriminate]. split; [discriminate|].
      intros (_ & Hpos & Hrange). apply Hz in Hrange.
      unfold completes in Hc. lia.
    + rewrite main_traps by assumption.
      destruct fuel as [|fuel]; [lia|]. cbn [fst snd]. split.
      * split; [|reflexivity]. intros _.
        unfold completes in Hc. split; [reflexivity|].
        split; [lia|]. apply Hz. lia.
      * intros _. split; [reflexivity|]. split.
        -- destruct (after_read_frame w) as (_ & _ & _ & _ & E). exact E.
        -- destruct (trapped_shown w) as (Hw & _). exact Hw.
  - rewrite main_eq, Hco. cbn [fst snd].
    split; [|discriminate]. split; [discriminate|]. intros (H & _). discriminate.
Qed.

Lemma faults_exactly_when_witness :
  fst (main 10 zero_divisor_world) = Trap /\
  w_file (snd (main 10 zero_divisor_world)) = Some EmptyString.
Proof.
  destruct (faults_exactly_when 10 zero_divisor_world) as (Hiff & Hleft).
  - vm_compute. lia.
  - assert (Ht : fst (main 10 zero_divisor_world) = Trap).
    { apply Hiff. split; [reflexivity|]. split.
      - apply Z.ltb_lt. vm_compute. reflexivity.
      - left. vm_compute. reflexivity. }
    split; [exact Ht|]. apply (Hleft Ht).
Defined.

(** X2. When the file can be opened, what it held before has no effect
    on the run: [fopen] with ["w"] empties it before anything is
    written. *)
Theorem old_file_discarded `{P : Prng}
        (fuel : nat) (w : world) (old : option string) :
  w_can_open w = true ->
  main fuel (set_file old w) = main fuel w.
Proof.
  intros Hco. rewrite !main_eq.
  change (w_can_open (set_file old w)) with (w_can_open w). rewrite Hco.
  destruct (after_read_set_file old w) as (Ea & Ep). rewrite Ep.
  assert (Es : seeded (set_file old w) = seeded w).
  { unfold seeded, seed_of. rewrite Ea. reflexivity. }
  now rewrite Es.
Qed.

Lemma old_file_discarded_witness :
  main 10 (set_file (Some msg_done) dice_world) = main 10 dice_world.
Proof.
  apply (old_file_discarded 10 dice_world (Some msg_done)). reflexivity.
Defined.

(** X3. After a run that opened the file and ended, by returning or by
    faulting, the file holds the values this run gave to [fprintf] and
    nothing else, and they can be read back: parsing its lines gives these
    values in their order, and writing them again gives the same text. *)
Theorem file_reads_back `{P : Prng} (fuel : nat) (w : world) :
  w_can_open w = true ->
  (Z.to_nat (n (parameters w)) < fuel)%nat ->
  exists vs text,
    written (w_trace (snd (main fuel w))) = written (w_trace w) ++ vs /\
    w_file (snd (main fuel w)) = Some text /\
    map parse_d (lines text) = map Some vs /\
    render vs = text.
Proof.
  intros Hco Hfuel. fold (count_of w) in Hfuel.
  assert (Hback : forall vs, map parse_d (lines (render vs)) = map Some vs).
  { intros vs. rewrite lines_render, map_map. apply map_ext.
    intros v. apply parse_print_d. }
  destruct (completes_dec w) as [Hc|Hc].
  - exists (outputs w), (render (outputs w)).
    rewrite main_completes by assumption.
    apply Nat.ltb_lt in Hfuel. rewrite Hfuel. cbn [fst snd].
    destruct (completed_shown w) as (Hw & _).
    split; [exact Hw|]. split; [apply completed_file|].
    split; [apply Hback|reflexivity].
  - exists [], EmptyString.
    rewrite main_traps by assumption.
    destruct fuel as [|fuel]; [lia|]. cbn [fst snd].
    destruct (trapped_shown w) as (Hw & _).
    split; [now rewrite app_nil_r|]. now repeat split.
Qed.

Lemma file_reads_back_witness :
  exists vs text,
    written (w_trace (snd (main 10 dice_world)))
    = written (w_trace dice_world) ++ vs /\
    w_file (snd (main 10 dice_world)) = Some text /\
    map parse_d (lines text) = map Some vs /\
    render vs = text.
Proof.
  apply (file_reads_back 10 dice_world).
  - reflexivity.
  - vm_compute. lia.
Defined.

(** X5. Input without a number is not detected.  When the input, after
    its white space, is at its end or at a character that is neither a
    digit nor a sign, the three [scanf] convert nothing: [n], [min] and
    [max] keep what the variables held, and the run goes on as any run
    that reads these three values, with the same outcome and the same
    file. *)
Theorem missing_input_runs_on_garbage `{P : Prng} (fuel : nat) (w : world) :
  starts_without_number (w_stdin w) ->
  n (parameters w) = wrap (n (w_junk w)) /\
  min (parameters w) = wrap (min (w_junk w)) /\
  max (parameters w) = wrap (max (w_junk w)) /\
  scans (w_trace (snd (main fuel w)))
  = scans (w_trace w) ++ [EScanf Vn None; EScanf Vmin None; EScanf Vmax None] /\
  (forall w2,
     to_unsigned (w_now w2) = to_unsigned (w_now w) ->
     w_can_open w2 = w_can_open w ->
     w_file w2 = w_file w ->
     n (parameters w2) = wrap (n (w_junk w)) ->
     min (parameters w2) = wrap (min (w_junk w)) ->
     max (parameters w2) = wrap (max (w_junk w)) ->
     fst (main fuel w) = fst (main fuel w2) /\
     w_file (snd (main fuel w)) = w_file (snd (main fuel w2))).
Proof.
  intros Hin.
  pose proof (parameters_scanned Vn w) as En.
  pose proof (parameters_scanned Vmin w) as Emin.
  pose proof (parameters_scanned Vmax w) as Emax.
  rewrite (scanned_without_number Vn w Hin) in En.
  rewrite (scanned_without_number Vmin w Hin) in Emin.
  rewrite (scanned_without_number Vmax w Hin) in Emax.
  cbn [load] in En, Emin, Emax.
  split; [exact En|]. split; [exact Emin|]. split; [exact Emax|]. split.
  - destruct (main_cases fuel w) as (tail & Hk & Htr).
    rewrite Htr, !scans_app.
    destruct (read_events_shown w) as (_ & _ & _ & Hs). rewrite Hs.
    rewrite (scanned_without_number Vn w Hin).
    rewrite (scanned_without_number Vmin w Hin).
    rewrite (scanned_without_number Vmax w Hin).
    rewrite (run_kind_scans fuel w _ tail Hk). now rewrite app_nil_r.
  - intros w2 Hseed Hco Hfile H2n H2min H2max.
    apply run_determined; unfold seed_of; congruence.
Qed.

Lemma missing_input_runs_on_garbage_witness :
  n (parameters garbage_world) = wrap (n (w_junk garbage_world)) /\
  fst (main 10 garbage_world) = fst (main 10 (sample_world "2 1 6" true 1000)) /\
  w_file (snd (main 10 garbage_world))
  = w_file (snd (main 10 (sample_world "2 1 6" true 1000))).
Proof.
  destruct (missing_input_runs_on_garbage 10 garbage_world)
    as (Hn & _ & _ & _ & H).
  - right. exists "x"%char, " 5"%string. repeat split; reflexivity.
  - split; [exact Hn|].
    apply (H (sample_world "2 1 6" true 1000)); vm_compute; reflexivity.
Defined.

(** X6. With a reversed range, [max < min - 1], the run does not fault
    and does not stay between the bounds: it writes [max(count, 0)] values,
    each from [min] up to [min + (min - max - 2)], hence above [max]
    (where these bounds are [int]s). *)
Theorem reversed_range_values `{P : Prng} (fuel : nat) (w : world) :
  w_can_open w = true ->
  (Z.to_nat (n (parameters w)) < fuel)%nat ->
  max (parameters w) < min (parameters w) - 1 ->
  min (parameters w) - max (parameters w) - 1 <= INT_MAX ->
  2 * min (parameters w) - max (parameters w) - 2 <= INT_MAX ->
  exists w' vs,
    main fuel w = (Done 0, w') /\
    written (w_trace w') = written (w_trace w) ++ vs /\
    List.length vs = Z.to_nat (n (parameters w)) /\
    Forall (fun v =>
              min (parameters w) <= v
              <= 2 * min (parameters w) - max (parameters w) - 2)
           vs.
Proof.
  intros Hco Hfuel Hrev Hw Htop. fold (count_of w) in Hfuel.
  destruct (parameters_in_int w) as (_ & Hlo & Hhi).
  exists (completed w), (outputs w).
  rewrite main_completes; [|assumption|right; now apply modulus_reversed].
  apply Nat.ltb_lt in Hfuel. rewrite Hfuel.
  destruct (completed_shown w) as (Hwr & _).
  split; [reflexivity|]. split; [exact Hwr|]. split; [apply outputs_length|].
  unfold outputs. apply Forall_map.
  eapply Forall_impl; [|apply draws_range].
  intros r Hr. cbn beta in Hr. apply gen_value_reversed; try assumption. lia.
Qed.

Lemma reversed_range_values_witness :
  exists w' vs,
    main 10 reversed_world = (Done 0, w') /\
    written (w_trace w') = written (w_trace reversed_world) ++ vs /\
    List.length vs = Z.to_nat (n (parameters reversed_world)) /\
    Forall (fun v =>
              min (parameters reversed_world) <= v
              <= 2 * min (parameters reversed_world)
                 - max (parameters reversed_world) - 2)
           vs.
Proof.
  apply (reversed_range_values 10 reversed_world).
  - reflexivity.
  - vm_compute. lia.
  - apply Z.ltb_lt. vm_compute. reflexivity.
  - apply Z.leb_le. vm_compute. reflexivity.
  - apply Z.leb_le. vm_compute. reflexivity.
Defined.

(** X7. The values are never more than the largest result of [rand()]
    above [min]: if [rand()] returns at most [B], a run on a range
    [min <= max] writes only values from [min] to [min + B], so that a
    range wider than [B + 1] is not covered. *)
Theorem values_within_rand_max `{P : Prng} (B : Z) (fuel : nat) (w w' : world) :
  (forall s, fst (rand_step s) <= B) ->
  min (parameters w) <= max (parameters w) ->
  max (parameters w) - min (parameters w) < INT_MAX ->
  main fuel w = (Done 0, w') ->
  exists vs,
    written (w_trace w') = written (w_trace w) ++ vs /\
    Forall (fun v => min (parameters w) <= v <= min (parameters w) + B) vs.
Proof.
  intros HB Hle Hw E.
  apply main_done_0 in E. destruct E as (_ & _ & _ & ->).
  destruct (parameters_in_int w) as (_ & Hlo & Hhi).
  exists (outputs w). destruct (completed_shown w) as (Hwr & _).
  split; [exact Hwr|]. unfold outputs. apply Forall_map.
  eapply Forall_impl; [|apply (draws_le B); exact HB].
  intros r Hr. cbn beta in Hr.
  pose proof (gen_value_le_draw (parameters w) r Hlo Hhi Hle Hw ltac:(lia)).
  lia.
Qed.

Lemma values_within_rand_max_witness :
  exists vs,
    written (w_trace (snd (main 10 wide_world)))
    = written (w_trace wide_world) ++ vs /\
    Forall (fun v => min (parameters wide_world) <= v
                     <= min (parameters wide_world) + 32767) vs.
Proof.
  apply (values_within_rand_max 32767 10 wide_world (snd (main 10 wide_world))).
  - exact sample_rand_max.
  - apply Z.leb_le. vm_compute. reflexivity.
  - apply Z.ltb_lt. vm_compute. reflexivity.
  - apply run_result. vm_compute. reflexivity.
Defined.
